(** * twitter_tester.py: the paginated search walker [ids_from_search]

    A shallow embedding of the generator [ids_from_search] of
    [twitter_tester.py] (lines 8-44), and the properties of it that the
    specification states.

    The generator is modelled as the state machine a Python generator is:
    a generator object is either not started, suspended at its only
    [yield] (line 30), or finished, and [next] resumes it until the next
    [yield], the [return] of line 34, the end of the [while] loop, or an
    exception of [engine.search].  Every [next] makes at most one call
    of [engine.search], so [next] is a total function; only the number
    of [next] calls of a whole walk may be unbounded. *)

From stdpp Require Import base gmap strings list sorting pretty.
From Stdlib Require Import ZArith Lia.

Local Open Scope Z_scope.

(** ** Data *)

(** The values of the keyword arguments passed to [engine.search]:
    [q] and [result_type] are strings, [count], [max_id] and [since_id]
    integers (Python integers are unbounded). *)
Inductive value : Type :=
  | VInt (z : Z)
  | VStr (s : string).

(** [search_params]: the [**search_params] dictionary of the generator. *)
Abbreviation params := (gmap string value).

(** A response of [engine.search] is read only through
    [response.get('statuses')] and [status.get('id')]: it is modelled as
    the list of the identifiers of its statuses, in the order received.
    The calls of [logging.debug] do not change the state and are left
    out. *)
Abbreviation page := (list Z).

(** What a call of [next] on the generator gives its caller. *)
Inductive outcome (X : Type) : Type :=
  | Yield (id : Z)
  | StopIteration
  | Raise (x : X).
Arguments Yield {X} id.
Arguments StopIteration {X}.
Arguments Raise {X} x.

(** The exceptions [engine.search] can raise.  A [StopIteration] among
    them matters, because the calls are made in the body of a
    generator: a [StopIteration] that leaves the body of a generator
    does not reach the caller of [next] as it is.  An interpreter with
    PEP 479 (Python 3.7 and later) raises
    [RuntimeError('generator raised StopIteration')] in its place, with
    the [StopIteration] as its cause; an older interpreter takes it for
    the end of the generator.  [is_StopIteration x] tells whether [x] is
    an instance of [StopIteration], [RuntimeError x] is the
    [RuntimeError] made of [x], and [pep479] tells which interpreter
    runs the program. *)
Class Exceptions (X : Type) : Type := {
  is_StopIteration : X → bool;
  RuntimeError : X → X;
  pep479 : bool
}.

(** What the caller of [next] gets when the exception [x] leaves the
    body of the generator. *)
Definition escape {X : Type} `{!Exceptions X} (x : X) : outcome X :=
  if is_StopIteration x
  then if pep479 (X := X) then Raise (RuntimeError x) else StopIteration
  else Raise x.

(** The generator object.  [Suspended] is the suspension at line 30
    with the local variables of the frame: [status] is the status whose
    identifier was just yielded, [rest] the statuses of the page the
    [for] loop has not reached yet, and [i] and [current_min] have the
    values they had when line 30 ran. *)
Inductive gen : Type :=
  | Fresh (search_params : params)
  | Suspended (search_params : params) (i : Z) (current_min : option Z)
              (status : Z) (rest : page)
  | Finished (search_params : params).

Definition params_of (g : gen) : params :=
  match g with
  | Fresh p => p
  | Suspended p _ _ _ _ => p
  | Finished p => p
  end.

(** Python's truth value of [current_min]: [None] and [0] are false. *)
Definition truthy (m : option Z) : bool :=
  match m with
  | None => false
  | Some z => negb (z =? 0)
  end.

(** Lines 36-37:
    [if not current_min or status.get('id') < current_min:
         current_min = status.get('id')].
    The comparison is evaluated only when [current_min] is true, hence
    an integer.  The result is never [None]. *)
Definition track (current_min : option Z) (status : Z) : Z :=
  match current_min with
  | None => status
  | Some m => if negb (truthy (Some m)) || (status <? m) then status else m
  end.

(** The value of [current_min] after the [for] loop has run lines 36-37
    on every status of [statuses], starting from [current_min]. *)
Fixpoint track_all (current_min : option Z) (statuses : page) : option Z :=
  match statuses with
  | [] => current_min
  | status :: rest => track_all (Some (track current_min status)) rest
  end.

(** The value of [current_min] at line 39, when the [for] loop has run
    over a page: [status] is the status the loop is at, [rest] the ones
    after it. *)
Fixpoint last_min (current_min : option Z) (status : Z) (rest : page) : Z :=
  match rest with
  | [] => track current_min status
  | status' :: rest' => last_min (Some (track current_min status)) status' rest'
  end.

(** The least element of the non-empty list [x :: l], the reference
    [last_min] is compared with. *)
Fixpoint minimum (x : Z) (l : list Z) : Z :=
  match l with
  | [] => x
  | y :: l' => Z.min x (minimum y l')
  end.

(** The world outside the generator: the state of the engine object,
    and a ghost log of the keyword arguments of every call of
    [engine.search] so far, oldest first. *)
Record world (E : Type) : Type := World { engine : E; calls : list params }.
Arguments World {E} engine calls.
Arguments engine {E} w.
Arguments calls {E} w.

(** How a consumer of the generator stopped: it stopped asking, the
    generator ended, or an exception reached it. *)
Inductive ending (X : Type) : Type :=
  | Pending
  | Exhausted
  | Failed (x : X).
Arguments Pending {X}.
Arguments Exhausted {X}.
Arguments Failed {X} x.

(** How a consumer stops when the exception [x] leaves the body of the
    generator it iterates. *)
Definition escaped {X : Type} `{!Exceptions X} (x : X) : ending X :=
  match escape x with
  | Raise y => Failed y
  | _ => Exhausted
  end.

Section Walker.

(** [X]: the exceptions [engine.search] can raise; [E]: the states of
    the engine object.  [search e p] is [engine.search] called with the
    keyword arguments [p] in the engine state [e]: it gives the
    engine's next state and either an exception or a response. *)
Context {X E : Type} `{!Exceptions X}.
Variable search : E → params → E * (X + page).
Variable limit : Z.

(** [engine.search] called with [search_params], lines 20 and 40. *)
Definition do_search (p : params) (w : world E) : world E * (X + page) :=
  let '(e', r) := search (engine w) p in
  (World e' (calls w ++ [p]), r).

(** Line 27 with the response just received, up to the first [yield]
    of its page: [while response.get('statuses', {}):
    current_min = None; for status in ...: yield status.get('id')]. *)
Definition enter_while (p : params) (i : Z) (response : page) (w : world E)
  : outcome X * gen * world E :=
  match response with
  | [] => (StopIteration, Finished p, w)
  | status :: rest => (Yield status, Suspended p i None status rest, w)
  end.

(** A call of [engine.search] followed by the loop test.  The generator
    has no [try]: an exception of the call leaves its body. *)
Definition call_and_enter (p : params) (i : Z) (w : world E)
  : outcome X * gen * world E :=
  let '(w', r) := do_search p w in
  match r with
  | inl x => (escape x, Finished p, w')
  | inr response => enter_while p i response w'
  end.

(** [next(g)]. *)
Definition next (g : gen) (w : world E) : outcome X * gen * world E :=
  match g with
  | Fresh p =>
      (* lines 20-26 *)
      call_and_enter p 0 w
  | Suspended p i current_min status rest =>
      (* lines 32-34 *)
      let i := i + 1 in
      if i =? limit then (StopIteration, Finished p, w)
      else
        (* lines 36-37 *)
        let current_min := track current_min status in
        match rest with
        | status' :: rest' =>
            (Yield status', Suspended p i (Some current_min) status' rest', w)
        | [] =>
            (* lines 39-40 *)
            let p := <["max_id" := VInt (current_min - 1)]> p in
            call_and_enter p i w
        end
  | Finished p => (StopIteration, Finished p, w)
  end.

(** What the consumer does with the [outcome] of one [next]: an
    identifier is kept and the consumer goes on with [k]; the end of
    the generator and an exception stop it. *)
Definition resume (k : gen → world E → list Z * ending X * gen * world E)
  (r : outcome X * gen * world E) : list Z * ending X * gen * world E :=
  match r with
  | (Yield id, g, w) =>
      let '(ids, e, g', w') := k g w in (id :: ids, e, g', w')
  | (StopIteration, g, w) => ([], Exhausted, g, w)
  | (Raise x, g, w) => ([], Failed x, g, w)
  end.

(** A consumer that calls [next] at most [n] times: the identifiers
    it got, how it stopped, and the generator and the world it left.
    [list(ids_from_search(...))] is [drive n] for an [n] at which the
    ending is not [Pending]. *)
Fixpoint drive (n : nat) (g : gen) (w : world E)
  : list Z * ending X * gen * world E :=
  match n with
  | O => ([], Pending, g, w)
  | S n' => resume (drive n') (next g w)
  end.

Definition ids_of (r : list Z * ending X * gen * world E) : list Z :=
  r.1.1.1.
Definition ending_of (r : list Z * ending X * gen * world E) : ending X :=
  r.1.1.2.
Definition gen_of (r : list Z * ending X * gen * world E) : gen := r.1.2.
Definition world_of (r : list Z * ending X * gen * world E) : world E :=
  r.2.

(** [l] put in front of the identifiers of a consumer's result. *)
Definition prepend (l : list Z) (r : list Z * ending X * gen * world E)
  : list Z * ending X * gen * world E :=
  (l ++ ids_of r, ending_of r, gen_of r, world_of r).

End Walker.

(** ** Stub engines *)

(** A stub that replays a fixed sequence of results whatever the
    arguments are: its state is the number of calls made so far. *)
Definition replay {X : Type} (results : nat → X + page)
  : nat → params → nat * (X + page) :=
  fun k _ => (S k, results k).

(** The results of a stub that returns the given pages, one per call,
    and fails on every further call. *)
Definition of_pages (pages : list page) : nat → unit + page :=
  fun k => match pages !! k with
           | Some pg => inr pg
           | None => inl tt
           end.

(** The failure of the stub [of_pages] is an exception that is not a
    [StopIteration]. *)
#[global] Instance unit_exceptions : Exceptions unit :=
  {| is_StopIteration := λ _, false; RuntimeError := λ x, x; pep479 := true |}.

(** The exceptions of a stub made with [unittest.mock.Mock]: the
    [StopIteration] a [Mock] raises when the list of its [side_effect]
    is used up, the [RuntimeError] an interpreter with PEP 479 makes of
    a [StopIteration], and an error of the connection. *)
Inductive mock_exception : Type :=
  | MockExhausted
  | GeneratorRaisedStopIteration
  | ConnectionError.

Definition mock_is_StopIteration (x : mock_exception) : bool :=
  match x with
  | MockExhausted => true
  | _ => false
  end.

(** A [Mock] stub under Python 3.7 or later. *)
#[global] Instance mock_exceptions : Exceptions mock_exception :=
  {| is_StopIteration := mock_is_StopIteration;
     RuntimeError := λ _, GeneratorRaisedStopIteration;
     pep479 := true |}.

(** A [Mock] stub under an interpreter without PEP 479. *)
Definition mock_exceptions_before_pep479 : Exceptions mock_exception :=
  {| is_StopIteration := mock_is_StopIteration;
     RuntimeError := λ _, GeneratorRaisedStopIteration;
     pep479 := false |}.

(** A [Mock] stub that returns the given pages, one per call, and is
    then used up. *)
Definition mock_of_pages (pages : list page) : nat → mock_exception + page :=
  fun k => match pages !! k with
           | Some pg => inr pg
           | None => inl MockExhausted
           end.

(** [list(ids_from_search(engine, limit, **p))] against a replaying
    stub with a consumer that pulls at most [n] items. *)
Definition walk {X : Type} `{!Exceptions X} (results : nat → X + page)
  (limit : Z) (p : params) (n : nat) : list Z * ending X * gen * world nat :=
  drive (replay results) limit n (Fresh p) (World O []).

(** The number of statuses in the first [k] results of a stub. *)
Fixpoint items_before {X : Type} (results : nat → X + page) (k : nat) : nat :=
  match k with
  | O => O
  | S k' =>
      (items_before results k' +
       match results k' with inr pg => length pg | inl _ => O end)%nat
  end.

(** An engine [search], started in the state [e], replays [results]: its
    successive calls return them in order, whatever the arguments. *)
Definition Replays {X E : Type} (search : E → params → E * (X + page))
  (e : E) (results : nat → X + page) : Prop :=
  ∃ st : nat → E, st O = e ∧ ∀ k p, search (st k) p = (st (S k), results k).

(** The [max_id] passed by the [k]-th call of [engine.search], if that
    call was made with one. *)
Definition max_id_of_call {E : Type} (w : world E) (k : nat) : option value :=
  c ← calls w !! k; c !! "max_id".

(** Two generator frames at the same point of the same page with the
    same count: they may differ in [search_params] and [current_min]. *)
Definition same_frame (g1 g2 : gen) : Prop :=
  match g1, g2 with
  | Fresh _, Fresh _ => True
  | Suspended _ i1 _ s1 rest1, Suspended _ i2 _ s2 rest2 =>
      i1 = i2 ∧ s1 = s2 ∧ rest1 = rest2
  | Finished _, Finished _ => True
  | _, _ => False
  end.

(** The search parameters of the command line, lines 114-118. *)
Definition initial_params (query : string) (limit : Z) : params :=
  {[ "q" := VStr query;
     "result_type" := VStr "recent";
     "count" := VInt (if limit =? 0 then 100 else Z.min limit 100) ]}.

(** The statuses a replaying stub serves from its [j]-th call on, in at
    most [d] calls, up to its first failure or empty response. *)
Fixpoint flow {X : Type} (results : nat → X + page) (j d : nat) : list Z :=
  match d with
  | O => []
  | S d' =>
      match results j with
      | inr (s :: rest) => (s :: rest) ++ flow results (S j) d'
      | _ => []
      end
  end.

(** The greatest element of the non-empty list [x :: l]. *)
Fixpoint maximum (x : Z) (l : list Z) : Z :=
  match l with
  | [] => x
  | y :: l' => Z.max x (maximum y l')
  end.

(** ** The command [main] *)

(** The credentials of the command line (lines 51-55): an option that
    was not given is [None]. *)
Record credentials : Type := Credentials {
  bearer_token : option string;
  consumer_key : option string;
  consumer_secret : option string;
  access_token : option string;
  access_token_secret : option string
}.

(** Python's truth value of an option of the command line: [None] and
    the empty string are false.  A true option is given back. *)
Definition given (o : option string) : option string :=
  match o with
  | Some s => if decide (s = EmptyString) then None else Some s
  | None => None
  end.

(** The two ways [main] constructs a [Twython] instance, lines 90 and
    97-103. *)
Inductive auth : Type :=
  | OAuth2 (token : string)
  | OAuth1 (app_key app_secret oauth_token oauth_token_secret : string).

(** Lines 88-103: the bearer token if there is one, else the four
    OAuth 1 credentials if all are there, else no engine. *)
Definition choose_auth (c : credentials) : option auth :=
  match given (bearer_token c) with
  | Some t => Some (OAuth2 t)
  | None =>
      match given (consumer_key c), given (consumer_secret c),
            given (access_token c), given (access_token_secret c) with
      | Some k, Some s, Some t, Some ts => Some (OAuth1 k s t ts)
      | _, _, _, _ => None
      end
  end.

(** The message of lines 106-110. *)
Definition no_engine_message : string :=
  "Either [bearer_token] or all of [consumer_key, consumer_secret, " +:+
  "access_token_secret, access_token_secret] must be provided to run" +:+
  " the searches on twitter.".

(** The message of line 125. *)
Definition no_results_message : string := "Sorry folks, no results!".

(** Lines 153-156:
    [sorted(set.union(set(a), set(b), set(c)), reverse=True)]. *)
Definition sorted_union (a b c : list Z) : list Z :=
  merge_sort (flip Z.le)
    (elements (list_to_set a ∪ list_to_set b ∪ list_to_set c : gset Z)).

(** ['x' if twid in ids else ''], lines 160-162. *)
Definition mark (twid : Z) (ids : list Z) : string :=
  if bool_decide (twid ∈ ids) then "x" else "".

(** A row of the table, lines 158-163; [str(twid)] is [pretty twid]. *)
Definition table_row (initial_ids max_only_ids max_and_since_ids : list Z)
  (twid : Z) : list string :=
  [pretty twid; mark twid initial_ids; mark twid max_only_ids;
   mark twid max_and_since_ids].

(** What a run of [main] comes to: it printed [text] and returned, an
    exception that left a walk ended it, or it was still iterating when
    the fuel of a [list(...)] ran out. *)
Inductive run (X : Type) : Type :=
  | Echoed (text : string)
  | Aborted (x : X)
  | Unfinished.
Arguments Echoed {X} text.
Arguments Aborted {X} x.
Arguments Unfinished {X}.

(** What lines 114-141 come to: the three searches were made, there
    were no results, or the run ended as above. *)
Inductive searched (X : Type) : Type :=
  | Searched (max_only_params max_and_since_params : params)
             (initial_ids max_only_ids max_and_since_ids : list Z)
  | NoResults
  | SearchAborted (x : X)
  | SearchUnfinished.
Arguments Searched {X} _ _ _ _ _.
Arguments NoResults {X}.
Arguments SearchAborted {X} x.
Arguments SearchUnfinished {X}.

Section Main.

(** [twython a] is the state of the [Twython] instance constructed from
    the credentials [a]; [pformat] is [PrettyPrinter(width=20).pformat]
    and [render] is [AsciiTable(table_data).table], both of libraries
    outside this repository. *)
Context {X E : Type} `{!Exceptions X}.
Variable twython : auth → E.
Variable search : E → params → E * (X + page).
Variable pformat : params → string.
Variable render : list (list string) → string.

(** Lines 144-164: the headings and a row for each identifier. *)
Definition table_data (initial_params max_only_params max_and_since_params
  : params) (initial_ids max_only_ids max_and_since_ids : list Z)
  : list (list string) :=
  ["tweet ids"; pformat initial_params; pformat max_only_params;
   pformat max_and_since_params]
  :: (table_row initial_ids max_only_ids max_and_since_ids
      <$> sorted_union initial_ids max_only_ids max_and_since_ids).

(** Lines 114-141: the three searches.  Each [list(ids_from_search(...))]
    is a consumer with [fuel] resumptions; the three generators get
    their own copies of the mappings, so the cursor one walk writes is
    not seen by the next. *)
Definition searches (fuel : nat) (limit : Z) (initial_params : params)
  (w : world E) : searched X * world E :=
  match drive search limit fuel (Fresh initial_params) w with
  | (_, Pending, _, w1) => (SearchUnfinished, w1)
  | (_, Failed x, _, w1) => (SearchAborted x, w1)
  | ([], Exhausted, _, w1) => (NoResults, w1)
  | (id :: ids, Exhausted, _, w1) =>
      let initial_ids := id :: ids in
      let max_id := maximum id ids in
      let min_id := minimum id ids in
      let max_only_params := <["max_id" := VInt max_id]> initial_params in
      match drive search limit fuel (Fresh max_only_params) w1 with
      | (_, Pending, _, w2) => (SearchUnfinished, w2)
      | (_, Failed x, _, w2) => (SearchAborted x, w2)
      | (max_only_ids, Exhausted, _, w2) =>
          let max_and_since_params :=
            <["since_id" := VInt (min_id - 1)]> max_only_params in
          match drive search limit fuel (Fresh max_and_since_params) w2 with
          | (_, Pending, _, w3) => (SearchUnfinished, w3)
          | (_, Failed x, _, w3) => (SearchAborted x, w3)
          | (max_and_since_ids, Exhausted, _, w3) =>
              (Searched max_only_params max_and_since_params
                 initial_ids max_only_ids max_and_since_ids, w3)
          end
      end
  end.

(** [main], lines 57-167, without the set-up of logging: what the run
    comes to and the arguments of the calls of [engine.search] it made. *)
Definition main (fuel : nat) (query : string) (c : credentials) (limit : Z)
  : run X * list params :=
  match choose_auth c with
  | None => (Echoed no_engine_message, [])
  | Some a =>
      let initial_params := initial_params query limit in
      match searches fuel limit initial_params (World (twython a) []) with
      | (SearchUnfinished, w) => (Unfinished, calls w)
      | (SearchAborted x, w) => (Aborted x, calls w)
      | (NoResults, w) => (Echoed no_results_message, calls w)
      | (Searched max_only_params max_and_since_params
           initial_ids max_only_ids max_and_since_ids, w) =>
          (Echoed (render (table_data initial_params max_only_params
                             max_and_since_params
                             initial_ids max_only_ids max_and_since_ids)),
           calls w)
      end
  end.

End Main.

(** * Properties *)

(** ** The tracked minimum *)

Lemma track_None s : track None s = s.
Proof. reflexivity. Qed.

Lemma track_zero s : track (Some 0) s = s.
Proof. reflexivity. Qed.

Lemma track_nonzero m s : m ≠ 0 → track (Some m) s = Z.min m s.
Proof.
  intros Hm. unfold track, truthy.
  destruct (Z.eqb_spec m 0) as [|_]; [contradiction|]. simpl.
  destruct (Z.ltb_spec s m); lia.
Qed.

Lemma track_all_last_min cm s rest :
  track_all cm (s :: rest) = Some (last_min cm s rest).
Proof.
  revert cm s. induction rest as [|s' rest IH]; intros cm s; [reflexivity|].
  cbn [track_all last_min] in *. apply IH.
Qed.

Lemma track_all_app cm l1 l2 :
  track_all cm (l1 ++ l2) = track_all (track_all cm l1) l2.
Proof.
  revert cm. induction l1 as [|s l1 IH]; intros cm; [reflexivity|].
  cbn [app track_all]. apply IH.
Qed.

(** A false [current_min] behaves as an unset one. *)
Lemma track_all_zero l : l ≠ [] → track_all (Some 0) l = track_all None l.
Proof. destruct l as [|s l]; [contradiction|reflexivity]. Qed.

Lemma minimum_le x l : minimum x l ≤ x.
Proof. destruct l; simpl; lia. Qed.

(** Without an identifier [0] the loop computes the minimum of the page. *)
Lemma last_min_nonzero m s rest :
  m ≠ 0 → Forall (λ z, z ≠ 0) (s :: rest) →
  last_min (Some m) s rest = Z.min m (minimum s rest).
Proof.
  revert m s. induction rest as [|s' rest IH]; intros m s Hm Hall.
  - simpl. by apply track_nonzero.
  - apply Forall_cons in Hall as [Hs Hall].
    cbn [last_min minimum]. rewrite IH; [|rewrite track_nonzero by done; lia|done].
    rewrite track_nonzero by done. lia.
Qed.

Lemma last_min_page_minimum s rest :
  Forall (λ z, z ≠ 0) (s :: rest) → last_min None s rest = minimum s rest.
Proof.
  intros Hall. destruct rest as [|s' rest]; [reflexivity|].
  apply Forall_cons in Hall as [Hs Hall].
  cbn [last_min minimum]. rewrite track_None. by apply last_min_nonzero.
Qed.

(** A tracked value that is not negative is replaced by a [0]. *)
Lemma track_all_nonneg_zero cm pre :
  match cm with Some m => 0 ≤ m | None => True end →
  Forall (λ z, 0 ≤ z) pre →
  track_all cm (pre ++ [0]) = Some 0.
Proof.
  revert cm. induction pre as [|s pre IH]; intros cm Hcm Hall.
  - simpl. f_equal. destruct cm as [m|]; [|reflexivity].
    unfold track, truthy. destruct (Z.eqb_spec m 0); simpl; [done|].
    destruct (Z.ltb_spec 0 m); lia.
  - apply Forall_cons in Hall as [Hs Hall]. simpl. apply IH; [|done].
    destruct cm as [m|]; [|done]. unfold track, truthy.
    destruct (negb (m =? 0) ) eqn:?; simpl; [|done].
    destruct (Z.ltb_spec s m); lia.
Qed.

(** ** One [next], and a consumer *)

Section WalkerFacts.

Context {X E : Type} `{!Exceptions X}.
Variable search : E → params → E * (X + page).
Variable limit : Z.

Implicit Types (g : gen) (w : world E) (p : params) (n : nat).
Implicit Types (r : list Z * ending X * gen * world E).

Lemma drive_S n g w :
  drive search limit (S n) g w
  = resume (drive search limit n) (next search limit g w).
Proof. reflexivity. Qed.

(** An exception that leaves the body never looks like a [yield]. *)
Lemma escape_not_Yield (x : X) id : escape x ≠ Yield id.
Proof. unfold escape. by destruct (is_StopIteration x), pep479. Qed.

Lemma escape_other (x : X) : is_StopIteration x = false → escape x = Raise x.
Proof. unfold escape. by intros ->. Qed.

Lemma escape_StopIteration (x : X) :
  is_StopIteration x = true →
  escape x = if pep479 (X := X) then Raise (RuntimeError x) else StopIteration.
Proof. unfold escape. by intros ->. Qed.

Lemma escape_Raise (x y : X) :
  escape x = Raise y →
  (is_StopIteration x = false ∧ y = x)
  ∨ (is_StopIteration x = true ∧ pep479 (X := X) = true ∧ y = RuntimeError x).
Proof.
  unfold escape. destruct (is_StopIteration x), (pep479 (X := X));
    intros [= <-] || intros [=]; auto.
Qed.

Lemma escaped_not_Pending (x : X) : escaped x ≠ Pending.
Proof. unfold escaped. by destruct (escape x). Qed.

Lemma resume_escape (k : gen → world E → list Z * ending X * gen * world E)
  (x : X) g w :
  resume k (escape x, g, w) = ([], escaped x, g, w).
Proof.
  unfold escaped. pose proof (escape_not_Yield x) as Hy.
  destruct (escape x) as [id| |y]; [by destruct (Hy id)|done..].
Qed.

(** What one call of [engine.search] and the loop test give. *)
Lemma call_and_enter_spec p i w :
  call_and_enter search p i w
  = let w' := World (search (engine w) p).1 (calls w ++ [p]) in
    match (search (engine w) p).2 with
    | inl x => (escape x, Finished p, w')
    | inr [] => (StopIteration, Finished p, w')
    | inr (s :: rest) => (Yield s, Suspended p i None s rest, w')
    end.
Proof.
  unfold call_and_enter, do_search, enter_while.
  destruct (search (engine w) p) as [e' [x|[|s rest]]]; reflexivity.
Qed.

Lemma next_Suspended_cons p i cm s s' rest w :
  i + 1 ≠ limit →
  next search limit (Suspended p i cm s (s' :: rest)) w
  = (Yield s', Suspended p (i + 1) (Some (track cm s)) s' rest, w).
Proof.
  intros Hi. cbn [next]. destruct (Z.eqb_spec (i + 1) limit); [done|reflexivity].
Qed.

Lemma next_Suspended_nil p i cm s w :
  i + 1 ≠ limit →
  next search limit (Suspended p i cm s []) w
  = call_and_enter search (<["max_id" := VInt (track cm s - 1)]> p) (i + 1) w.
Proof.
  intros Hi. cbn [next]. destruct (Z.eqb_spec (i + 1) limit); [done|reflexivity].
Qed.

Lemma next_Suspended_limit p i cm s rest w :
  i + 1 = limit →
  next search limit (Suspended p i cm s rest) w
  = (StopIteration, Finished p, w).
Proof.
  intros Hi. cbn [next]. destruct (Z.eqb_spec (i + 1) limit); [reflexivity|done].
Qed.

(** A finished generator stays finished and calls nothing. *)
Lemma drive_Finished n p w :
  drive search limit (S n) (Finished p) w = ([], Exhausted, Finished p, w).
Proof. reflexivity. Qed.

(** The generator a consumer leaves is finished unless the consumer
    stopped asking. *)
Lemma drive_ended n g w :
  ending_of (drive search limit n g w) ≠ Pending →
  ∃ p, gen_of (drive search limit n g w) = Finished p.
Proof.
  revert g w. induction n as [|n IH]; intros g w; [done|].
  rewrite drive_S.
  destruct (next search limit g w) as [[o g'] w'] eqn:Hnext.
  destruct o as [id| |x]; cbn [resume].
  - specialize (IH g' w').
    destruct (drive search limit n g' w') as [[[ids e] g''] w''].
    exact IH.
  - intros _. destruct g as [p|p i cm s rest|p]; cbn [next] in Hnext.
    + rewrite call_and_enter_spec in Hnext.
      destruct (search (engine w) p).2 as [x|[|s rest]];
        inversion Hnext; subst; by eexists.
    + destruct (i + 1 =? limit); [inversion Hnext; subst; by eexists|].
      destruct rest as [|s' rest]; [|done].
      rewrite call_and_enter_spec in Hnext.
      destruct (search (engine w) _).2 as [x|[|s0 rest0]];
        inversion Hnext; subst; by eexists.
    + inversion Hnext; subst; by eexists.
  - intros _. destruct g as [p|p i cm s rest|p]; cbn [next] in Hnext.
    + rewrite call_and_enter_spec in Hnext.
      destruct (search (engine w) p).2 as [x0|[|s rest]];
        inversion Hnext; subst; by eexists.
    + destruct (i + 1 =? limit); [done|].
      destruct rest as [|s' rest]; [|done].
      rewrite call_and_enter_spec in Hnext.
      destruct (search (engine w) _).2 as [x0|[|s0 rest0]];
        inversion Hnext; subst; by eexists.
    + done.
Qed.

(** Once the generator has ended, asking more changes nothing. *)
Lemma drive_stable n m g w :
  ending_of (drive search limit n g w) ≠ Pending →
  drive search limit (n + m) g w = drive search limit n g w.
Proof.
  revert g w. induction n as [|n IH]; intros g w; [done|].
  cbn [Nat.add]. rewrite !drive_S.
  destruct (next search limit g w) as [[[id| |x] g'] w']; cbn [resume]; try done.
  intros He. rewrite IH; [reflexivity|].
  destruct (drive search limit n g' w') as [[[ids e] g''] w'']. exact He.
Qed.

(** A consumer gets at most one identifier for each [next]. *)
Lemma drive_length n g w :
  (length (ids_of (drive search limit n g w)) ≤ n)%nat.
Proof.
  revert g w. induction n as [|n IH]; intros g w; [done|].
  rewrite drive_S.
  destruct (next search limit g w) as [[[id| |x] g'] w']; cbn [resume];
    try (cbn; lia).
  specialize (IH g' w').
  destruct (drive search limit n g' w') as [[[ids e] g''] w''].
  cbn in *. lia.
Qed.

Lemma prepend_nil r : prepend [] r = r.
Proof. by destruct r as [[[ids e] g] w]. Qed.

Lemma resume_Yield (k : gen → world E → list Z * ending X * gen * world E)
  id g w :
  resume k (Yield id, g, w) = prepend [id] (k g w).
Proof. cbn [resume]. by destruct (k g w) as [[[ids e] g'] w']. Qed.

Lemma ids_of_prepend l r : ids_of (prepend l r) = l ++ ids_of r.
Proof. reflexivity. Qed.

Lemma ending_of_prepend l r : ending_of (prepend l r) = ending_of r.
Proof. reflexivity. Qed.

Lemma world_of_prepend l r : world_of (prepend l r) = world_of r.
Proof. reflexivity. Qed.

Lemma prepend_prepend l1 l2 r :
  prepend l1 (prepend l2 r) = prepend (l1 ++ l2) r.
Proof. destruct r as [[[ids e] g] w]. unfold prepend. cbn. by rewrite app_assoc. Qed.

(** A page on which the limit is not reached: the consumer gets the
    rest of the page, and the [next] after it sets [max_id] to the
    tracked minimum minus 1 and calls [engine.search]. *)
Lemma drive_page n p i cm s rest w :
  (∀ j, 0 < j ≤ Z.of_nat (length rest) + 1 → i + j ≠ limit) →
  drive search limit (length rest + S n) (Suspended p i cm s rest) w
  = prepend rest
      (resume (drive search limit n)
         (call_and_enter search
            (<["max_id" := VInt (last_min cm s rest - 1)]> p)
            (i + 1 + Z.of_nat (length rest)) w)).
Proof.
  revert i cm s. induction rest as [|s' rest IH]; intros i cm s Hlim.
  - cbn [length Nat.add]. rewrite drive_S, next_Suspended_nil, prepend_nil.
    + cbn [last_min]. by replace (i + 1 + Z.of_nat 0) with (i + 1) by lia.
    + apply Hlim. cbn. lia.
  - cbn [length Nat.add]. rewrite drive_S, next_Suspended_cons.
    + rewrite resume_Yield, IH.
      * rewrite prepend_prepend. cbn [last_min app].
        by replace (i + 1 + 1 + Z.of_nat (length rest))
          with (i + 1 + Z.of_nat (S (length rest))) by lia.
      * intros j Hj. replace (i + 1 + j) with (i + (1 + j)) by lia.
        apply Hlim. cbn [length]. lia.
    + apply Hlim. cbn [length]. lia.
Qed.

(** The limit reached on the [k]-th further status of a page: the
    consumer gets these [k] statuses and no more, and nothing is
    called. *)
Lemma drive_cutoff k n p i cm s rest w :
  (k ≤ length rest)%nat → i + 1 + Z.of_nat k = limit →
  drive search limit (k + S n) (Suspended p i cm s rest) w
  = (take k rest, Exhausted, Finished p, w).
Proof.
  revert i cm s rest. induction k as [|k IH]; intros i cm s rest Hk Hlim.
  - cbn [Nat.add]. rewrite drive_S, next_Suspended_limit by lia.
    by rewrite take_0.
  - destruct rest as [|s' rest]; [cbn in Hk; lia|].
    cbn [Nat.add]. rewrite drive_S, next_Suspended_cons by lia.
    rewrite resume_Yield, IH; [reflexivity|cbn in Hk; lia|lia].
Qed.

(** With a positive limit, a generator suspended after [i + 1]
    identifiers yields at most [limit - (i + 1)] more. *)
Lemma yield_bound n p i cm s rest w :
  0 ≤ i < limit →
  Z.of_nat (length (ids_of (drive search limit n (Suspended p i cm s rest) w)))
  ≤ limit - i - 1.
Proof.
  revert p i cm s rest w.
  induction n as [|n IH]; intros p i cm s rest w Hi; [cbn; lia|].
  rewrite drive_S. destruct (Z.eq_dec (i + 1) limit) as [Heq|Hne].
  { rewrite next_Suspended_limit by done. cbn. lia. }
  destruct rest as [|s' rest].
  - rewrite next_Suspended_nil, call_and_enter_spec by done. cbv zeta.
    destruct (search (engine w) _).2 as [x|[|s0 rest0]];
      [rewrite resume_escape; cbn; lia|cbn; lia|].
    rewrite resume_Yield. unfold prepend, ids_of at 1. cbn [fst app length].
    match goal with
    | |- context [drive search limit n (Suspended ?p' _ _ _ _) ?w0] =>
        assert (0 ≤ i + 1 < limit) as Hi' by lia;
        pose proof (IH p' (i + 1) None s0 rest0 w0 Hi')
    end.
    rewrite Nat2Z.inj_succ. lia.
  - rewrite next_Suspended_cons, resume_Yield by done.
    unfold prepend, ids_of at 1. cbn [fst app length].
    specialize (IH p (i + 1) (Some (track cm s)) s' rest w).
    rewrite Nat2Z.inj_succ. lia.
Qed.

(** With a positive limit, a generator suspended after [i + 1]
    identifiers ends within [limit - i] more calls of [next]. *)
Lemma ends_by_limit n p i cm s rest w :
  0 ≤ i < limit → (Z.to_nat (limit - i) ≤ n)%nat →
  ending_of (drive search limit n (Suspended p i cm s rest) w) ≠ Pending.
Proof.
  revert p i cm s rest w.
  induction n as [|n IH]; intros p i cm s rest w Hi Hn; [lia|].
  rewrite drive_S. destruct (Z.eq_dec (i + 1) limit) as [Heq|Hne].
  { by rewrite next_Suspended_limit. }
  assert (0 ≤ i + 1 < limit) as Hi' by lia.
  assert (Z.to_nat (limit - (i + 1)) ≤ n)%nat as Hn' by lia.
  destruct rest as [|s' rest].
  - rewrite next_Suspended_nil, call_and_enter_spec by done. cbv zeta.
    destruct (search (engine w) _).2 as [x|[|s0 rest0]];
      [rewrite resume_escape; apply escaped_not_Pending|done|].
    rewrite resume_Yield. apply IH; done.
  - rewrite next_Suspended_cons, resume_Yield by done. apply IH; done.
Qed.

(** [next] changes [search_params] at the key [max_id] only. *)
Lemma next_frame g w k :
  k ≠ "max_id" →
  params_of (next search limit g w).1.2 !! k = params_of g !! k.
Proof.
  intros Hk. destruct g as [p|p i cm s rest|p]; cbn [next].
  - rewrite call_and_enter_spec. cbv zeta.
    by destruct (search (engine w) p).2 as [x|[|s rest]].
  - destruct (i + 1 =? limit); [done|].
    destruct rest as [|s' rest]; [|done].
    rewrite call_and_enter_spec. cbv zeta.
    destruct (search (engine w) _).2 as [x|[|s0 rest0]];
      cbn [fst snd params_of]; by rewrite lookup_insert_ne.
  - done.
Qed.

(** [next] calls [engine.search] at most once, with the parameters the
    generator is left with; and the result of the call decides the
    outcome: an exception leaves the body of the generator. *)
Lemma next_calls g w :
  let '(o, g', w') := next search limit g w in
  (w' = w ∧ ∀ x, o ≠ Raise x)
  ∨ (w' = World (search (engine w) (params_of g')).1
             (calls w ++ [params_of g'])
     ∧ o = match (search (engine w) (params_of g')).2 with
           | inl x => escape x
           | inr [] => StopIteration
           | inr (s :: _) => Yield s
           end).
Proof.
  destruct g as [p|p i cm s rest|p]; cbn [next].
  - rewrite call_and_enter_spec. cbv zeta.
    destruct (search (engine w) p).2 as [x|[|s rest]] eqn:Hr;
      right; cbn [params_of]; by rewrite Hr.
  - destruct (i + 1 =? limit); [by left|].
    destruct rest as [|s' rest]; [|by left].
    rewrite call_and_enter_spec. cbv zeta.
    destruct (search (engine w) _).2 as [x|[|s0 rest0]] eqn:Hr;
      right; cbn [params_of]; by rewrite Hr.
  - by left.
Qed.

(** A consumer changes [search_params] at the key [max_id] only, in
    the generator and in every call it makes. *)
Lemma drive_frame n g w k :
  k ≠ "max_id" →
  params_of (gen_of (drive search limit n g w)) !! k = params_of g !! k.
Proof.
  intros Hk. revert g w. induction n as [|n IH]; intros g w; [done|].
  rewrite drive_S. pose proof (next_frame g w k Hk) as Hf.
  destruct (next search limit g w) as [[[id| |x] g'] w']; cbn [resume];
    cbn in Hf; try done.
  specialize (IH g' w').
  destruct (drive search limit n g' w') as [[[ids e] g''] w''].
  cbn in *. congruence.
Qed.

Lemma drive_calls_frame n g w k :
  k ≠ "max_id" →
  Forall (λ c : params, c !! k = params_of g !! k) (calls w) →
  Forall (λ c : params, c !! k = params_of g !! k)
    (calls (world_of (drive search limit n g w))).
Proof.
  intros Hk. revert g w. induction n as [|n IH]; intros g w Hw; [done|].
  rewrite drive_S. pose proof (next_frame g w k Hk) as Hf.
  pose proof (next_calls g w) as Hc.
  destruct (next search limit g w) as [[o g'] w']. cbn in Hf.
  assert (Forall (λ c : params, c !! k = params_of g' !! k) (calls w')) as Hw'.
  { rewrite Hf. destruct Hc as [[-> _]|[-> _]]; [done|].
    cbn [calls]. apply Forall_app. split; [done|].
    by apply Forall_singleton. }
  destruct o as [id| |x]; cbn [resume].
  - specialize (IH g' w' Hw').
    destruct (drive search limit n g' w') as [[[ids e] g''] w''].
    cbn in *. by rewrite <- Hf.
  - cbn. by rewrite <- Hf.
  - cbn. by rewrite <- Hf.
Qed.

End WalkerFacts.

(** ** Walks against a replaying stub *)

Section StubFacts.

Context {X : Type} `{!Exceptions X}.
Variable results : nat → X + page.
Variable limit : Z.

Lemma items_before_mono j k :
  (j ≤ k)%nat → (items_before results j ≤ items_before results k)%nat.
Proof. induction 1 as [|k _ IH]; cbn [items_before]; lia. Qed.

Lemma replay_call p i j cs :
  call_and_enter (replay results) p i (World j cs)
  = match results j with
    | inl x => (escape x, Finished p, World (S j) (cs ++ [p]))
    | inr [] => (StopIteration, Finished p, World (S j) (cs ++ [p]))
    | inr (s :: rest) =>
        (Yield s, Suspended p i None s rest, World (S j) (cs ++ [p]))
    end.
Proof. rewrite call_and_enter_spec. cbn. by destruct (results j) as [x|[|s rest]]. Qed.

(** If the [k]-th result of the stub is an empty page, a generator
    suspended before the [j]-th call, [j ≤ k], ends once its consumer
    has asked for the statuses left in the pages before the [k]-th and
    once more. *)
Lemma ends_by_empty_page k n j p i cm s rest cs :
  results k = inr [] → (j ≤ k)%nat →
  (length rest + items_before results k + 1 ≤ n + items_before results j)%nat →
  ending_of (drive (replay results) limit n (Suspended p i cm s rest)
               (World j cs)) ≠ Pending.
Proof.
  intros Hk. revert j p i cm s rest cs.
  induction n as [|n IH]; intros j p i cm s rest cs Hj Hn.
  { pose proof (items_before_mono j k Hj). lia. }
  rewrite drive_S. destruct (Z.eq_dec (i + 1) limit) as [Heq|Hne].
  { by rewrite next_Suspended_limit. }
  destruct rest as [|s' rest].
  - rewrite next_Suspended_nil, replay_call by done.
    destruct (decide (j = k)) as [->|Hjk]; [by rewrite Hk|].
    destruct (results j) as [x|[|s0 rest0]] eqn:Hr;
      [rewrite resume_escape; apply escaped_not_Pending|done|].
    rewrite resume_Yield. apply IH; [lia|].
    cbn [items_before]. rewrite Hr. cbn [length] in *. lia.
  - rewrite next_Suspended_cons, resume_Yield by done.
    apply IH; [done|]. cbn [length] in Hn. lia.
Qed.

Lemma walk_ends_by_empty_page k n p :
  results k = inr [] → (items_before results k < n)%nat →
  ending_of (walk results limit p n) ≠ Pending.
Proof.
  intros Hk Hn. unfold walk. destruct n as [|n]; [lia|].
  rewrite drive_S. cbn [next]. rewrite replay_call.
  destruct (decide (0%nat = k)) as [<-|H0]; [by rewrite Hk|].
  destruct (results 0%nat) as [x|[|s0 rest0]] eqn:Hr;
    [rewrite resume_escape; apply escaped_not_Pending|done|].
  rewrite resume_Yield.
  apply (ends_by_empty_page k); [done|lia|].
  cbn [items_before]. rewrite Hr. cbn [length] in *. lia.
Qed.

Lemma walk_ends_by_limit n p :
  0 < limit → (Z.to_nat limit < n)%nat →
  ending_of (walk results limit p n) ≠ Pending.
Proof.
  intros Hl Hn. unfold walk. destruct n as [|n]; [lia|].
  rewrite drive_S. cbn [next]. rewrite replay_call.
  destruct (results 0%nat) as [x|[|s0 rest0]];
    [rewrite resume_escape; apply escaped_not_Pending|done|].
  rewrite resume_Yield. apply ends_by_limit; lia.
Qed.

End StubFacts.

(** ** Two walks over the same responses *)

Section TwoWalks.

Context {X E1 E2 : Type} `{!Exceptions X}.
Variable search1 : E1 → params → E1 * (X + page).
Variable search2 : E2 → params → E2 * (X + page).
Variable results : nat → X + page.
Variable limit : Z.
Variable st1 : nat → E1.
Variable st2 : nat → E2.
Hypothesis replays1 : ∀ k p, search1 (st1 k) p = (st1 (S k), results k).
Hypothesis replays2 : ∀ k p, search2 (st2 k) p = (st2 (S k), results k).

Lemma call_same p1 p2 i w1 w2 k :
  engine w1 = st1 k → engine w2 = st2 k →
  let r1 := call_and_enter search1 p1 i w1 in
  let r2 := call_and_enter search2 p2 i w2 in
  r1.1.1 = r2.1.1 ∧ same_frame r1.1.2 r2.1.2
  ∧ engine r1.2 = st1 (S k) ∧ engine r2.2 = st2 (S k).
Proof.
  intros H1 H2. cbv zeta. rewrite !call_and_enter_spec, H1, H2.
  rewrite replays1, replays2. cbn [fst snd].
  by destruct (results k) as [x|[|s rest]].
Qed.

Lemma next_same g1 g2 w1 w2 k :
  same_frame g1 g2 → engine w1 = st1 k → engine w2 = st2 k →
  let r1 := next search1 limit g1 w1 in
  let r2 := next search2 limit g2 w2 in
  r1.1.1 = r2.1.1 ∧ same_frame r1.1.2 r2.1.2
  ∧ ∃ k', engine r1.2 = st1 k' ∧ engine r2.2 = st2 k'.
Proof.
  intros Hg H1 H2. cbv zeta.
  destruct g1 as [p1|p1 i1 cm1 s1 rest1|p1], g2 as [p2|p2 i2 cm2 s2 rest2|p2];
    try done; cbn [next].
  - destruct (call_same p1 p2 0 w1 w2 k H1 H2) as (? & ? & ? & ?).
    split; [done|]. split; [done|]. by exists (S k).
  - destruct Hg as (<- & <- & <-).
    destruct (i1 + 1 =? limit); [cbn; by eauto|].
    destruct rest1 as [|s' rest1]; [|cbn; by eauto 7].
    destruct (call_same (<["max_id" := VInt (track cm1 s1 - 1)]> p1)
                (<["max_id" := VInt (track cm2 s1 - 1)]> p2) (i1 + 1) w1 w2 k
                H1 H2) as (? & ? & ? & ?).
    split; [done|]. split; [done|]. by exists (S k).
  - cbn; by eauto.
Qed.

Lemma drive_same n g1 g2 w1 w2 k :
  same_frame g1 g2 → engine w1 = st1 k → engine w2 = st2 k →
  ids_of (drive search1 limit n g1 w1) = ids_of (drive search2 limit n g2 w2)
  ∧ ending_of (drive search1 limit n g1 w1)
    = ending_of (drive search2 limit n g2 w2).
Proof.
  revert g1 g2 w1 w2 k.
  induction n as [|n IH]; intros g1 g2 w1 w2 k Hg H1 H2; [done|].
  rewrite !drive_S.
  destruct (next_same g1 g2 w1 w2 k Hg H1 H2) as (Ho & Hg' & k' & H1' & H2').
  destruct (next search1 limit g1 w1) as [[o1 g1'] w1'].
  destruct (next search2 limit g2 w2) as [[o2 g2'] w2'].
  cbn [fst snd] in *. subst o2.
  destruct o1 as [id| |x]; [|done..].
  rewrite !resume_Yield. unfold prepend.
  destruct (IH g1' g2' w1' w2' k' Hg' H1' H2') as [Hids He].
  split; [|exact He]. unfold ids_of at 1 3. cbn [fst]. by rewrite Hids.
Qed.

End TwoWalks.

(** ** The cursor of the next call *)

Section Cursor.

Context {X E : Type} `{!Exceptions X}.
Variable search : E → params → E * (X + page).
Variable limit : Z.

(** A page on which the limit is not reached is followed by exactly one
    call, with [max_id] set to the tracked minimum minus 1. *)
Lemma page_then_call p i cm s rest (w : world E) :
  (∀ j, 0 < j ≤ Z.of_nat (length rest) + 1 → i + j ≠ limit) →
  calls (world_of (drive search limit (S (length rest))
                     (Suspended p i cm s rest) w))
  = calls w ++ [<["max_id" := VInt (last_min cm s rest - 1)]> p].
Proof.
  intros Hlim. replace (S (length rest)) with (length rest + 1)%nat by lia.
  rewrite drive_page, call_and_enter_spec by done. cbv zeta.
  destruct (search (engine w) _).2 as [x|[|s0 rest0]];
    [by rewrite resume_escape|done..].
Qed.

(** The same for the first page of a walk. *)
Lemma first_page_then_call p s rest e' (w : world E) :
  search (engine w) p = (e', inr (s :: rest)) →
  (∀ j, 0 < j ≤ Z.of_nat (length rest) + 1 → j ≠ limit) →
  calls (world_of (drive search limit (S (S (length rest))) (Fresh p) w))
  = calls w ++ [p; <["max_id" := VInt (last_min None s rest - 1)]> p].
Proof.
  intros Hs Hlim. rewrite drive_S. cbn [next].
  rewrite call_and_enter_spec, Hs. cbn [fst snd]. rewrite resume_Yield.
  unfold prepend at 1, world_of at 1. cbn [snd].
  rewrite page_then_call by (intros j Hj; rewrite Z.add_0_l; auto).
  cbn [calls]. by rewrite <- app_assoc.
Qed.

(** On a page without the identifier [0], the cursor of the next call
    is the minimum of that page minus 1, whatever the order of the page
    and whatever the pages before it were. *)
Lemma cursor_is_page_minimum p i s rest (w : world E) :
  Forall (λ z, z ≠ 0) (s :: rest) →
  (∀ j, 0 < j ≤ Z.of_nat (length rest) + 1 → i + j ≠ limit) →
  calls (world_of (drive search limit (S (length rest))
                     (Suspended p i None s rest) w))
  = calls w ++ [<["max_id" := VInt (minimum s rest - 1)]> p].
Proof.
  intros Hnz Hlim. rewrite page_then_call by done.
  by rewrite last_min_page_minimum.
Qed.

End Cursor.

Lemma minimum_spec x l :
  minimum x l ∈ x :: l ∧ Forall (λ y, minimum x l ≤ y) (x :: l).
Proof.
  revert x. induction l as [|y l IH]; intros x; cbn [minimum].
  - split; [by left|by apply Forall_singleton].
  - destruct (IH y) as [Hin Hle]. split.
    + destruct (Z.min_spec x (minimum y l)) as [[_ ->]|[_ ->]];
        [by left|by right].
    + apply Forall_cons. split; [lia|].
      eapply Forall_impl; [exact Hle|]. intros z Hz. cbn in Hz. lia.
Qed.

(** C1, at the input where the code leaves it: a walk without limit
    whose first page has the identifiers [0, 5].  The minimum of the
    page is [0], so the specification asks for the cursor [-1]; line 36
    takes the tracked [0] for an unset value, so the second call is made
    with [max_id = 4].  On the page [50, 30, 40] the second call is made
    with [max_id = 29]. *)
Theorem C1_cursor_of_page_with_zero (p : params) :
  calls (world_of (walk (of_pages [[0; 5]; []]) 0 p 3))
  = [p; <["max_id" := VInt 4]> p]
  ∧ minimum 0 [5] - 1 = -1
  ∧ calls (world_of (walk (of_pages [[50; 30; 40]; []]) 0 p 4))
    = [p; <["max_id" := VInt 29]> p].
Proof.
  split; [|split; [reflexivity|]].
  - unfold walk.
    rewrite (first_page_then_call _ 0 p 0 [5] 1%nat); [done|done|].
    intros j Hj. lia.
  - unfold walk.
    rewrite (first_page_then_call _ 0 p 50 [30; 40] 1%nat); [done|done|].
    intros j Hj. lia.
Qed.

(** C9, as the code has it.  Line 36 tests the truth value of
    [current_min], so a tracked [0] counts as unset.  On a page in which
    an item with identifier [0], preceded by no negative identifier, is
    followed by at least one more item ([s], then [later]), the [0] is
    the tracked minimum when it is reached, the next item overwrites it
    whatever its identifier is, and the cursor of the next call is the
    one the items after the [0] give on their own.  A page with the
    identifiers [0, 5] makes the next call's [max_id] equal to [4]. *)
Theorem C9_tracked_zero_is_overwritten {X E : Type} `{!Exceptions X}
  (search : E → params → E * (X + page)) (limit : Z)
  (p : params) (i s0 : Z) (rest0 pre : page) (s : Z) (later : page)
  (w : world E) :
  s0 :: rest0 = pre ++ 0 :: s :: later →
  Forall (λ z, 0 ≤ z) pre →
  (∀ j, 0 < j ≤ Z.of_nat (length rest0) + 1 → i + j ≠ limit) →
  track_all None (pre ++ [0]) = Some 0
  ∧ track (Some 0) s = s
  ∧ calls (world_of (drive search limit (S (length rest0))
                       (Suspended p i None s0 rest0) w))
    = calls w ++ [<["max_id" := VInt (last_min None s later - 1)]> p]
  ∧ max_id_of_call (world_of (walk (of_pages [[0; 5]; []]) 0 p 3)) 1
    = Some (VInt 4).
Proof.
  intros Hpage Hpre Hlim.
  assert (track_all None (pre ++ [0]) = Some 0) as Hzero
    by (by apply track_all_nonneg_zero).
  split; [exact Hzero|]. split; [reflexivity|]. split.
  - assert (Some (last_min None s0 rest0) = Some (last_min None s later))
      as Heq.
    { rewrite <- !track_all_last_min, Hpage.
      change (pre ++ 0 :: s :: later) with (pre ++ [0] ++ s :: later).
      rewrite app_assoc, track_all_app, Hzero. by apply track_all_zero. }
    injection Heq as Heq. by rewrite page_then_call, Heq.
  - unfold walk, max_id_of_call.
    rewrite (first_page_then_call _ 0 p 0 [5] 1%nat); [|done|intros j Hj; lia].
    change (<["max_id" := VInt (last_min None 0 [5] - 1)]> p !! "max_id"
            = Some (VInt 4)).
    by rewrite lookup_insert_eq.
Qed.

Lemma C9_tracked_zero_is_overwritten_witness :
  [0; 5; 3] = [] ++ 0 :: 5 :: [3]
  ∧ Forall (λ z, 0 ≤ z) ([] : page)
  ∧ (∀ j, 0 < j ≤ Z.of_nat (length [5; 3]) + 1 → 0 + j ≠ 0)
  ∧ calls (world_of (drive (replay (of_pages [[0; 5; 3]; []])) 0 3
                       (Suspended ∅ 0 None 0 [5; 3]) (World 1%nat [∅])))
    = [∅; <["max_id" := VInt (last_min None 5 [3] - 1)]> ∅].
Proof.
  split; [reflexivity|]. split; [constructor|]. split; [intros j Hj; lia|].
  apply (C9_tracked_zero_is_overwritten (replay (of_pages [[0; 5; 3]; []])) 0
           ∅ 0 0 [5; 3] [] 5 [3] (World 1%nat [∅]));
    [reflexivity|constructor|intros j Hj; lia].
Defined.

(** C9 as stated fails when a negative identifier comes before the [0]:
    on the page [-3, 0, 5] the [0] never becomes the tracked minimum, and
    the next call's cursor is [-4], from the item before the [0], not
    the [4] that the item after the [0] gives. *)
Lemma C9_counterexample :
  max_id_of_call (world_of (walk (of_pages [[-3; 0; 5]; []]) 0 ∅ 4)) 1
  = Some (VInt (-4))
  ∧ max_id_of_call (world_of (walk (of_pages [[-3; 0; 5]; []]) 0 ∅ 4)) 1
    ≠ Some (VInt (last_min None 5 [] - 1))
  ∧ track_all None [-3; 0] = Some (-3).
Proof. split; [|split]; by vm_compute. Qed.

(** ** The limit *)

(** C4: without limit, against a search that returns pages of sizes
    3, 2 and 0, the walker yields the 5 identifiers in the order
    received and ends; it has then made exactly 3 calls, the third of
    which returned the empty page (the stub would fail on a 4th). *)
Theorem C4_unlimited_walk_3_2_0 (a b c d e : Z) (p : params) (m : nat) :
  let r := walk (of_pages [[a; b; c]; [d; e]; []]) 0 p (6 + m) in
  ids_of r = [a; b; c; d; e]
  ∧ ending_of r = Exhausted
  ∧ length (calls (world_of r)) = 3%nat
  ∧ engine (world_of r) = 3%nat.
Proof.
  cbv zeta. unfold walk. rewrite drive_stable by done. by repeat split.
Qed.

(** C2: with a positive limit a consumer never gets more than [limit]
    identifiers; a generator resumed when the count reaches the limit
    ends at once, whatever is left of the page and without a call; so
    when the limit falls on the [k]-th of the statuses left in a page,
    the consumer gets these [k] and no more.  With the limit 4 and
    pages of sizes 3 and 3 the walker yields exactly 4 identifiers and
    makes exactly 2 calls. *)
Theorem C2_limit_is_a_hard_cutoff {X E : Type} `{!Exceptions X}
  (search : E → params → E * (X + page)) (limit : Z) :
  0 < limit →
  (∀ n p w,
     Z.of_nat (length (ids_of (drive search limit n (Fresh p) w))) ≤ limit)
  ∧ (∀ p i cm s rest w,
       i + 1 = limit →
       next search limit (Suspended p i cm s rest) w
       = (StopIteration, Finished p, w))
  ∧ (∀ k n p i cm s rest w,
       (k ≤ length rest)%nat → i + 1 + Z.of_nat k = limit →
       drive search limit (k + S n) (Suspended p i cm s rest) w
       = (take k rest, Exhausted, Finished p, w))
  ∧ (∀ (a b c d e f : Z) (p : params) (m : nat),
       let r := walk (of_pages [[a; b; c]; [d; e; f]]) 4 p (5 + m) in
       ids_of r = [a; b; c; d]
       ∧ ending_of r = Exhausted
       ∧ length (calls (world_of r)) = 2%nat
       ∧ engine (world_of r) = 2%nat).
Proof.
  intros Hl. split; [|split; [|split]].
  - intros n p w. destruct n as [|n]; [cbn; lia|].
    rewrite drive_S. cbn [next]. rewrite call_and_enter_spec. cbv zeta.
    destruct (search (engine w) p).2 as [x|[|s rest]];
      [rewrite resume_escape; cbn; lia|cbn; lia|].
    rewrite resume_Yield. unfold prepend, ids_of at 1. cbn [fst app length].
    match goal with
    | |- context [drive search limit n ?g ?w0] =>
        pose proof (yield_bound search limit n p 0 None s rest w0 ltac:(lia))
    end.
    rewrite Nat2Z.inj_succ. lia.
  - intros. by apply next_Suspended_limit.
  - intros. by apply drive_cutoff.
  - intros a b c d e f p m. cbv zeta. unfold walk.
    rewrite drive_stable by done. by repeat split.
Qed.

Lemma C2_limit_is_a_hard_cutoff_witness :
  0 < 4
  ∧ ids_of (walk (of_pages [[11; 12; 13]; [7; 8; 9]]) 4 ∅ 9) = [11; 12; 13; 7]
  ∧ (Z.of_nat (length (ids_of
       (drive (replay (of_pages [[11; 12; 13]; [7; 8; 9]])) 4 9 (Fresh ∅)
          (World 0%nat [])))) ≤ 4).
Proof.
  split; [lia|].
  destruct (C2_limit_is_a_hard_cutoff
              (replay (of_pages [[11; 12; 13]; [7; 8; 9]])) 4 ltac:(lia))
    as (Hbound & _ & _ & Hex).
  split; [apply (Hex 11 12 13 7 8 9 ∅ 4%nat)|apply Hbound].
Defined.

(** C5: when the count reaches a positive limit on the last status of a
    page, the generator ends on the next resumption without calling
    [engine.search]: line 34 returns before line 40 is reached.  So a
    walk whose first page has exactly [limit] statuses yields that page
    and makes the one call that fetched it.  With the limit 3 and a
    single page of size 3 the walker yields exactly 3 identifiers and
    makes exactly 1 call. *)
Theorem C5_no_call_when_limit_ends_page {X E : Type} `{!Exceptions X}
  (search : E → params → E * (X + page)) (limit : Z)
  (p : params) (pg : page) (e' : E) (w : world E) :
  0 < limit →
  search (engine w) p = (e', inr pg) →
  Z.of_nat (length pg) = limit →
  (∀ m, drive search limit (S (length pg) + m) (Fresh p) w
        = (pg, Exhausted, Finished p, World e' (calls w ++ [p])))
  ∧ (∀ q i cm s w0,
       i + 1 = limit →
       next search limit (Suspended q i cm s []) w0
       = (StopIteration, Finished q, w0))
  ∧ (∀ (a b c : Z) (q : params) (m : nat),
       let r := walk (of_pages [[a; b; c]]) 3 q (4 + m) in
       ids_of r = [a; b; c]
       ∧ ending_of r = Exhausted
       ∧ length (calls (world_of r)) = 1%nat
       ∧ engine (world_of r) = 1%nat).
Proof.
  intros Hl Hs Hlen. split; [|split].
  - intros m. destruct pg as [|s rest]; [cbn in Hlen; lia|].
    cbn [length Nat.add]. rewrite drive_S. cbn [next].
    rewrite call_and_enter_spec, Hs. cbn [fst snd]. rewrite resume_Yield.
    replace (S (length rest + m)) with (length rest + S m)%nat by lia.
    rewrite drive_cutoff; [|done|cbn [length] in Hlen; lia].
    by rewrite firstn_all.
  - intros. by apply next_Suspended_limit.
  - intros a b c q m. cbv zeta. unfold walk.
    rewrite drive_stable by done. by repeat split.
Qed.

Lemma C5_no_call_when_limit_ends_page_witness :
  0 < 3
  ∧ replay (of_pages [[21; 22; 23]; [24]]) 0%nat ∅
    = (1%nat, inr [21; 22; 23])
  ∧ Z.of_nat (length [21; 22; 23]) = 3
  ∧ drive (replay (of_pages [[21; 22; 23]; [24]])) 3 (S (length [21; 22; 23]) + 2)
      (Fresh ∅) (World 0%nat [])
    = ([21; 22; 23], Exhausted, Finished ∅, World 1%nat [∅]).
Proof.
  split; [lia|]. split; [reflexivity|]. split; [reflexivity|].
  apply (C5_no_call_when_limit_ends_page
           (replay (of_pages [[21; 22; 23]; [24]])) 3 ∅ [21; 22; 23] 1%nat
           (World 0%nat []) ltac:(lia) eq_refl eq_refl).
Defined.

(** ** Empty responses and failures *)

(** C6: when the call of [engine.search] returns a response without
    statuses, the generator ends without yielding, and it has made that
    one call only: on the very first call (line 20) the consumer gets
    the empty sequence after exactly one call, and the same holds for
    the call of line 40 after a page.  A finished generator yields
    nothing and calls nothing, however often it is asked. *)
Theorem C6_empty_response_is_terminal {X E : Type} `{!Exceptions X}
  (search : E → params → E * (X + page)) (limit : Z)
  (p : params) (e' : E) (w : world E) :
  search (engine w) p = (e', inr []) →
  (∀ n, drive search limit (S n) (Fresh p) w
        = ([], Exhausted, Finished p, World e' (calls w ++ [p])))
  ∧ (∀ n q i cm s,
       i + 1 ≠ limit → <["max_id" := VInt (track cm s - 1)]> q = p →
       drive search limit (S n) (Suspended q i cm s []) w
       = ([], Exhausted, Finished p, World e' (calls w ++ [p])))
  ∧ (∀ n w0, drive search limit (S n) (Finished p) w0
             = ([], Exhausted, Finished p, w0)).
Proof.
  intros Hs. split; [|split].
  - intros n. rewrite drive_S. cbn [next].
    by rewrite call_and_enter_spec, Hs.
  - intros n q i cm s Hi <-. rewrite drive_S, next_Suspended_nil by done.
    by rewrite call_and_enter_spec, Hs.
  - intros n w0. apply drive_Finished.
Qed.

Lemma C6_empty_response_is_terminal_witness :
  replay (of_pages [[]; [5]]) 0%nat ∅ = (1%nat, inr [])
  ∧ drive (replay (of_pages [[]; [5]])) 0 (S 7) (Fresh ∅) (World 0%nat [])
    = ([], Exhausted, Finished ∅, World 1%nat [∅]).
Proof.
  split; [reflexivity|].
  apply (C6_empty_response_is_terminal (replay (of_pages [[]; [5]])) 0 ∅
           1%nat (World 0%nat []) eq_refl).
Defined.

(** C7, as the code has it.  When the call of [engine.search] raises
    an [x] that is not a [StopIteration], [next] raises the same [x];
    the engine was called once, the generator is finished (a later
    [next] calls nothing), and its [search_params] are the ones it
    passed to the failed call: on line 40 they hold the cursor written
    by line 39 for that call.  A [StopIteration] of the call ends the
    generator in the same way, after that one call and with the same
    [search_params], but it does not reach the caller as it is: the
    call is made in the body of a generator, so an interpreter with
    PEP 479 raises a [RuntimeError] in its place and an older one ends
    the sequence.  Conversely every exception [next] raises is the one
    the engine raised in that very call, or the [RuntimeError] made of
    its [StopIteration]. *)
Theorem C7_engine_failure_propagates {X E : Type} `{!Exceptions X}
  (search : E → params → E * (X + page)) (limit : Z)
  (p : params) (e' : E) (x : X) (w : world E) :
  search (engine w) p = (e', inl x) →
  is_StopIteration x = false →
  next search limit (Fresh p) w
  = (Raise x, Finished p, World e' (calls w ++ [p]))
  ∧ (∀ q i cm s,
       i + 1 ≠ limit → <["max_id" := VInt (track cm s - 1)]> q = p →
       next search limit (Suspended q i cm s []) w
       = (Raise x, Finished p, World e' (calls w ++ [p])))
  ∧ (∀ n, drive search limit (S n) (Fresh p) w
          = ([], Failed x, Finished p, World e' (calls w ++ [p])))
  ∧ (∀ n w0, world_of (drive search limit n (Finished p) w0) = w0)
  ∧ (∀ q x' e0 w0,
       search (engine w0) q = (e0, inl x') → is_StopIteration x' = true →
       next search limit (Fresh q) w0
       = (if pep479 (X := X) then Raise (RuntimeError x') else StopIteration,
          Finished q, World e0 (calls w0 ++ [q]))
       ∧ ∀ q0 i cm s,
           i + 1 ≠ limit → <["max_id" := VInt (track cm s - 1)]> q0 = q →
           next search limit (Suspended q0 i cm s []) w0
           = (if pep479 (X := X) then Raise (RuntimeError x')
              else StopIteration,
              Finished q, World e0 (calls w0 ++ [q])))
  ∧ (∀ g w0 y g' w',
       next search limit g w0 = (Raise y, g', w') →
       g' = Finished (params_of g')
       ∧ calls w' = calls w0 ++ [params_of g']
       ∧ ∃ x0,
           search (engine w0) (params_of g') = (engine w', inl x0)
           ∧ ((is_StopIteration x0 = false ∧ y = x0)
              ∨ (is_StopIteration x0 = true ∧ pep479 (X := X) = true
                 ∧ y = RuntimeError x0))).
Proof.
  intros Hs Hx.
  assert (next search limit (Fresh p) w
          = (Raise x, Finished p, World e' (calls w ++ [p]))) as Hfresh.
  { cbn [next]. rewrite call_and_enter_spec, Hs. cbn [fst snd].
    by rewrite escape_other. }
  split; [exact Hfresh|]. split; [|split; [|split; [|split]]].
  - intros q i cm s Hi <-. rewrite next_Suspended_nil by done.
    rewrite call_and_enter_spec, Hs. cbn [fst snd]. by rewrite escape_other.
  - intros n. by rewrite drive_S, Hfresh.
  - intros [|n] w0; [reflexivity|]. by rewrite drive_Finished.
  - intros q x' e0 w0 Hq Hx'. split.
    + cbn [next]. rewrite call_and_enter_spec, Hq. cbn [fst snd].
      by rewrite escape_StopIteration.
    + intros q0 i cm s Hi <-. rewrite next_Suspended_nil by done.
      rewrite call_and_enter_spec, Hq. cbn [fst snd].
      by rewrite escape_StopIteration.
  - intros g w0 y g' w' Hnext.
    assert (∀ q j, call_and_enter search q j w0 = (Raise y, g', w') →
              g' = Finished (params_of g')
              ∧ calls w' = calls w0 ++ [params_of g']
              ∧ ∃ x0,
                  search (engine w0) (params_of g') = (engine w', inl x0)
                  ∧ ((is_StopIteration x0 = false ∧ y = x0)
                     ∨ (is_StopIteration x0 = true ∧ pep479 (X := X) = true
                        ∧ y = RuntimeError x0))) as Hcall.
    { intros q j. rewrite call_and_enter_spec. cbv zeta.
      destruct (search (engine w0) q) as [e0 [x0|[|s0 rest0]]] eqn:Hq;
        cbn [fst snd]; intros [= Hesc <- <-]; cbn [params_of engine calls].
      split; [done|]. split; [done|]. exists x0. split; [exact Hq|].
      by apply escape_Raise. }
    destruct g as [q|q i cm s rest|q]; cbn [next] in Hnext.
    + by eapply Hcall.
    + destruct (i + 1 =? limit); [done|].
      destruct rest as [|s' rest]; [|done]. by eapply Hcall.
    + done.
Qed.

Lemma C7_engine_failure_propagates_witness :
  replay (λ k, match k with O => inr [9] | _ => inl ConnectionError end)
    1%nat (<["max_id" := VInt 8]> ∅) = (2%nat, inl ConnectionError)
  ∧ is_StopIteration ConnectionError = false
  ∧ next (replay (λ k, match k with O => inr [9] | _ => inl ConnectionError end))
      0 (Suspended ∅ 0 None 9 []) (World 1%nat [∅])
    = (Raise ConnectionError, Finished (<["max_id" := VInt 8]> ∅),
       World 2%nat [∅; <["max_id" := VInt 8]> ∅]).
Proof.
  split; [reflexivity|]. split; [reflexivity|].
  destruct (@C7_engine_failure_propagates mock_exception nat mock_exceptions
              (replay (λ k, match k with
                            | O => inr [9]
                            | _ => inl ConnectionError
                            end)) 0
              (<["max_id" := VInt 8]> ∅) 2%nat ConnectionError
              (World 1%nat [∅]) eq_refl eq_refl)
    as (_ & Hpage & _).
  apply (Hpage ∅ 0 None 9); [lia|reflexivity].
Defined.

(** C7 as stated fails for a [StopIteration]: against a [Mock] stub that
    returns the page [9] and is then used up, the second call raises
    [StopIteration]; the consumer has got the identifier [9], and what
    reaches it next is not that [StopIteration] but, under PEP 479, the
    interpreter's [RuntimeError], and before PEP 479 the plain end of
    the sequence. *)
Lemma C7_counterexample :
  replay (mock_of_pages [[9]]) 1%nat (<["max_id" := VInt 8]> ∅)
  = (2%nat, inl MockExhausted)
  ∧ next (replay (mock_of_pages [[9]])) 0 (Suspended ∅ 0 None 9 [])
      (World 1%nat [∅])
    = (Raise GeneratorRaisedStopIteration, Finished (<["max_id" := VInt 8]> ∅),
       World 2%nat [∅; <["max_id" := VInt 8]> ∅])
  ∧ next (replay (mock_of_pages [[9]])) 0 (Suspended ∅ 0 None 9 [])
      (World 1%nat [∅])
    ≠ (Raise MockExhausted, Finished (<["max_id" := VInt 8]> ∅),
       World 2%nat [∅; <["max_id" := VInt 8]> ∅])
  ∧ walk (mock_of_pages [[9]]) 0 ∅ 2
    = ([9], Failed GeneratorRaisedStopIteration,
       Finished (<["max_id" := VInt 8]> ∅),
       World 2%nat [∅; <["max_id" := VInt 8]> ∅])
  ∧ @next _ _ mock_exceptions_before_pep479 (replay (mock_of_pages [[9]])) 0
      (Suspended ∅ 0 None 9 []) (World 1%nat [∅])
    = (StopIteration, Finished (<["max_id" := VInt 8]> ∅),
       World 2%nat [∅; <["max_id" := VInt 8]> ∅]).
Proof. repeat split; try reflexivity. discriminate. Qed.

(** C8: of the keys of [search_params] the walker writes [max_id] and
    no other: at every key [k] other than [max_id] the mapping of the
    generator is after any number of resumptions what it was, and so is
    the mapping passed to every call of [engine.search]. *)
Theorem C8_only_max_id_is_updated {X E : Type} `{!Exceptions X}
  (search : E → params → E * (X + page)) (limit : Z)
  (n : nat) (g : gen) (w : world E) (k : string) :
  k ≠ "max_id" →
  params_of (next search limit g w).1.2 !! k = params_of g !! k
  ∧ params_of (gen_of (drive search limit n g w)) !! k = params_of g !! k
  ∧ (Forall (λ c : params, c !! k = params_of g !! k) (calls w) →
     Forall (λ c : params, c !! k = params_of g !! k)
       (calls (world_of (drive search limit n g w)))).
Proof.
  intros Hk. split; [|split].
  - by apply next_frame.
  - by apply drive_frame.
  - by apply drive_calls_frame.
Qed.

Lemma C8_only_max_id_is_updated_witness :
  "q" ≠ "max_id"
  ∧ params_of (gen_of (drive (replay (of_pages [[5; 3]; [2]; []])) 0 9
                         (Fresh (initial_params "rocq" 0)) (World 0%nat [])))
    !! "q" = Some (VStr "rocq").
Proof.
  split; [discriminate|].
  destruct (C8_only_max_id_is_updated (replay (of_pages [[5; 3]; [2]; []])) 0
              9 (Fresh (initial_params "rocq" 0)) (World 0%nat []) "q"
              ltac:(discriminate)) as (_ & -> & _).
  reflexivity.
Defined.

(** ** Finite and infinite walks *)

(** Without a positive limit, and against a search that always returns
    a page with statuses, the generator never ends: a consumer that
    asks [n] times gets [n] identifiers. *)
Lemma never_ends {X : Type} `{!Exceptions X} (results : nat → X + page) (limit : Z) :
  limit ≤ 0 → (∀ k, ∃ s rest, results k = inr (s :: rest)) →
  ∀ n j p i cm s rest cs,
    0 ≤ i →
    ending_of (drive (replay results) limit n (Suspended p i cm s rest)
                 (World j cs)) = Pending
    ∧ length (ids_of (drive (replay results) limit n
                        (Suspended p i cm s rest) (World j cs))) = n.
Proof.
  intros Hl Hres. induction n as [|n IH]; intros j p i cm s rest cs Hi;
    [done|].
  rewrite drive_S. destruct rest as [|s' rest].
  - rewrite next_Suspended_nil, replay_call by lia.
    destruct (Hres j) as (s0 & rest0 & ->). rewrite resume_Yield.
    destruct (IH (S j) (<["max_id" := VInt (track cm s - 1)]> p) (i + 1) None
                s0 rest0 (cs ++ [<["max_id" := VInt (track cm s - 1)]> p]))
      as [He Hlen]; [lia|].
    rewrite ending_of_prepend, ids_of_prepend, length_app, Hlen.
    by split.
  - rewrite next_Suspended_cons, resume_Yield by lia.
    destruct (IH j p (i + 1) (Some (track cm s)) s' rest cs) as [He Hlen];
      [lia|].
    rewrite ending_of_prepend, ids_of_prepend, length_app, Hlen.
    by split.
Qed.

Lemma walk_never_ends {X : Type} `{!Exceptions X} (results : nat → X + page) (limit : Z) p n :
  limit ≤ 0 → (∀ k, ∃ s rest, results k = inr (s :: rest)) →
  ending_of (walk results limit p n) = Pending
  ∧ length (ids_of (walk results limit p n)) = n.
Proof.
  intros Hl Hres. unfold walk. destruct n as [|n]; [done|].
  rewrite drive_S. cbn [next]. rewrite replay_call.
  destruct (Hres 0%nat) as (s0 & rest0 & ->). rewrite resume_Yield.
  destruct (never_ends results limit Hl Hres n 1%nat p 0 None s0 rest0
              ([] ++ [p])) as [He Hlen]; [lia|].
  rewrite ending_of_prepend, ids_of_prepend, length_app, Hlen.
  by split.
Qed.

(** C3, as the code has it.  With a positive limit the generator ends
    within [limit + 1] resumptions, whatever the engine does; against a
    search whose [k]-th response has no statuses it ends once the
    statuses of the responses before it have been asked for; after it
    has ended nothing more is yielded.  So the sequence can be infinite
    only when the limit is not positive (zero or negative, since line
    33 tests [i == limit]) and no response is empty. *)
Theorem C3_walk_is_finite {X E : Type} `{!Exceptions X}
  (search : E → params → E * (X + page)) (results : nat → X + page)
  (limit : Z) (p : params) :
  (0 < limit →
   ∀ (w : world E) n,
     (Z.to_nat limit < n)%nat →
     ending_of (drive search limit n (Fresh p) w) ≠ Pending)
  ∧ (∀ k n,
       results k = inr [] → (items_before results k < n)%nat →
       ending_of (walk results limit p n) ≠ Pending)
  ∧ (∀ (w : world E) n m,
       ending_of (drive search limit n (Fresh p) w) ≠ Pending →
       drive search limit (n + m) (Fresh p) w
       = drive search limit n (Fresh p) w)
  ∧ ((∀ n, ending_of (walk results limit p n) = Pending) →
     limit ≤ 0 ∧ ∀ k, results k ≠ inr []).
Proof.
  split; [|split; [|split]].
  - intros Hl w n Hn. destruct n as [|n]; [lia|].
    rewrite drive_S. cbn [next]. rewrite call_and_enter_spec. cbv zeta.
    destruct (search (engine w) p).2 as [x|[|s rest]];
      [rewrite resume_escape; apply escaped_not_Pending|done|].
    rewrite resume_Yield. apply ends_by_limit; lia.
  - intros k n Hk Hn. by apply (walk_ends_by_empty_page results limit k).
  - intros w n m. apply drive_stable.
  - intros Hinf. split.
    + destruct (Z.le_gt_cases limit 0) as [|Hl]; [done|].
      destruct (walk_ends_by_limit results limit (S (Z.to_nat limit)) p);
        [lia|lia|apply Hinf].
    + intros k Hk.
      destruct (walk_ends_by_empty_page results limit k
                  (S (items_before results k)) p Hk); [lia|apply Hinf].
Qed.

Lemma C3_walk_is_finite_witness :
  of_pages [[4; 2]; []] 1%nat = inr []
  ∧ (items_before (of_pages [[4; 2]; []]%Z) 1 < 3)%nat
  ∧ ending_of (walk (of_pages [[4; 2]; []]) 0 ∅ 3) ≠ Pending.
Proof.
  split; [reflexivity|]. split; [cbn; lia|].
  destruct (C3_walk_is_finite (replay (of_pages [[4; 2]; []]))
              (of_pages [[4; 2]; []]) 0 ∅) as (_ & Hempty & _).
  apply (Hempty 1%nat 3%nat); [reflexivity|cbn; lia].
Defined.

(** C3 as stated fails for a negative limit: with [limit = -1] the test
    of line 33 never holds, and against a search that always returns one
    status the generator never ends, although the limit is not [0]. *)
Lemma C3_counterexample :
  (∀ n, ending_of (walk (λ _, inr [1] : unit + page) (-1) ∅ n) = Pending
        ∧ length (ids_of (walk (λ _, inr [1] : unit + page) (-1) ∅ n)) = n)
  ∧ -1 ≠ 0.
Proof.
  split; [|lia]. intros n. apply walk_never_ends; [lia|].
  intros k. by exists 1, [].
Qed.

(** ** Determinism *)

Lemma replay_Replays {X : Type} (results : nat → X + page) :
  Replays (replay results) 0%nat results.
Proof. by exists (λ k, k). Qed.

(** C10: two walks with the same limit whose engines replay the same
    sequence of responses yield the same identifiers and end the same
    way, for every number of items asked for: the identifiers depend on
    the limit and on the responses only, not on the engine's state nor
    on the parameter mapping the walk began with. *)
Theorem C10_replayed_walks_agree {X E1 E2 : Type} `{!Exceptions X}
  (search1 : E1 → params → E1 * (X + page))
  (search2 : E2 → params → E2 * (X + page))
  (e1 : E1) (e2 : E2) (results : nat → X + page)
  (limit : Z) (p1 p2 : params) (n : nat) :
  Replays search1 e1 results → Replays search2 e2 results →
  ids_of (drive search1 limit n (Fresh p1) (World e1 []))
  = ids_of (drive search2 limit n (Fresh p2) (World e2 []))
  ∧ ending_of (drive search1 limit n (Fresh p1) (World e1 []))
    = ending_of (drive search2 limit n (Fresh p2) (World e2 [])).
Proof.
  intros (st1 & <- & H1) (st2 & <- & H2).
  by apply (drive_same search1 search2 results limit st1 st2 H1 H2 n
              (Fresh p1) (Fresh p2) (World (st1 0%nat) [])
              (World (st2 0%nat) []) 0%nat).
Qed.

Lemma C10_replayed_walks_agree_witness :
  Replays (replay (of_pages [[8; 6]; [3]; []])) 0%nat
    (of_pages [[8; 6]; [3]; []])
  ∧ ids_of (walk (of_pages [[8; 6]; [3]; []]) 0 (initial_params "a" 0) 7)
    = ids_of (walk (of_pages [[8; 6]; [3]; []]) 0 (initial_params "a" 0) 7)
  ∧ ids_of (walk (of_pages [[8; 6]; [3]; []]) 0 (initial_params "a" 0) 7)
    = ids_of (walk (of_pages [[8; 6]; [3]; []]) 0 ∅ 7).
Proof.
  split; [apply replay_Replays|]. split.
  - apply (C10_replayed_walks_agree (replay (of_pages [[8; 6]; [3]; []]))
             (replay (of_pages [[8; 6]; [3]; []])) 0%nat 0%nat
             (of_pages [[8; 6]; [3]; []]) 0 (initial_params "a" 0)
             (initial_params "a" 0) 7 (replay_Replays _) (replay_Replays _)).
  - apply (C10_replayed_walks_agree (replay (of_pages [[8; 6]; [3]; []]))
             (replay (of_pages [[8; 6]; [3]; []])) 0%nat 0%nat
             (of_pages [[8; 6]; [3]; []]) 0 (initial_params "a" 0)
             ∅ 7 (replay_Replays _) (replay_Replays _)).
Defined.

(** * Further properties of the walker *)

(** ** What is yielded *)

Lemma flow_S {X : Type} (results : nat → X + page) j d :
  flow results j (S d)
  = match results j with
    | inr (s :: rest) => (s :: rest) ++ flow results (S j) d
    | _ => []
    end.
Proof. reflexivity. Qed.

Lemma flow_more {X : Type} (results : nat → X + page) a j d :
  (a ≤ d)%nat → take a (flow results j (S d)) = take a (flow results j d).
Proof.
  revert a j. induction d as [|d IH]; intros a j Ha.
  - replace a with 0%nat by lia. by rewrite !take_0.
  - rewrite (flow_S results j (S d)), (flow_S results j d).
    destruct (results j) as [x|[|s rest]]; [done..|].
    rewrite !(take_app (s :: rest)). f_equal.
    apply IH. cbn [length]. lia.
Qed.

Lemma suspended_yields {X : Type} `{!Exceptions X} (results : nat → X + page) (limit : Z)
  n j p i cm s rest cs :
  ids_of (drive (replay results) limit n (Suspended p i cm s rest) (World j cs))
  = take (if i <? limit then Nat.min n (Z.to_nat (limit - i - 1)) else n)
      (rest ++ flow results j n).
Proof.
  revert j p i cm s rest cs. induction n as [|n IH]; intros j p i cm s rest cs.
  { cbn [drive ids_of fst]. destruct (i <? limit); by rewrite take_0. }
  rewrite drive_S. destruct (Z.eq_dec (i + 1) limit) as [Heq|Hne].
  { rewrite next_Suspended_limit by done.
    destruct (Z.ltb_spec i limit); [|lia].
    replace (Z.to_nat (limit - i - 1)) with 0%nat by lia.
    by rewrite Nat.min_0_r, take_0. }
  assert ((if i <? limit then Nat.min (S n) (Z.to_nat (limit - i - 1)) else S n)
          = S (if i + 1 <? limit
               then Nat.min n (Z.to_nat (limit - (i + 1) - 1)) else n)) as ->.
  { destruct (Z.ltb_spec i limit), (Z.ltb_spec (i + 1) limit); lia. }
  destruct rest as [|s' rest].
  - rewrite next_Suspended_nil, replay_call by done.
    rewrite flow_S. cbn [app].
    destruct (results j) as [x|[|s0 rest0]];
      [by rewrite resume_escape|done|].
    by rewrite resume_Yield, ids_of_prepend, IH.
  - rewrite next_Suspended_cons, resume_Yield, ids_of_prepend, IH by done.
    cbn [app take]. f_equal.
    rewrite !(take_app rest). f_equal. symmetry. apply flow_more.
    destruct (i + 1 <? limit); lia.
Qed.

(** The identifiers a consumer gets in [n] resumptions are the first
    [n] statuses the search serves, in the order served, up to its first
    failure or empty response, and cut at [limit] when it is positive:
    no status is dropped, repeated or reordered. *)
Theorem walk_yields_served_statuses {X : Type} `{!Exceptions X} (results : nat → X + page)
  (limit : Z) (p : params) (n : nat) :
  ids_of (walk results limit p n)
  = take (if 0 <? limit then Nat.min n (Z.to_nat limit) else n)
      (flow results 0 n).
Proof.
  unfold walk. destruct n as [|n].
  { cbn [drive ids_of fst]. destruct (0 <? limit); by rewrite take_0. }
  rewrite drive_S. cbn [next]. rewrite replay_call, flow_S.
  destruct (results 0%nat) as [x|[|s0 rest0]].
  - by rewrite resume_escape, take_nil.
  - by rewrite take_nil.
  - rewrite resume_Yield, ids_of_prepend, suspended_yields.
    assert ((if 0 <? limit then Nat.min (S n) (Z.to_nat limit) else S n)
            = S (if 0 <? limit then Nat.min n (Z.to_nat (limit - 0 - 1))
                 else n)) as ->.
    { destruct (Z.ltb_spec 0 limit); lia. }
    reflexivity.
Qed.

(** ** How often the engine is called *)

Lemma drive_calls_bound {X E : Type} `{!Exceptions X}
  (search : E → params → E * (X + page)) (limit : Z)
  (n : nat) (g : gen) (w : world E) :
  calls w `prefix_of` calls (world_of (drive search limit n g w))
  ∧ (length (calls (world_of (drive search limit n g w)))
     ≤ length (calls w) + length (ids_of (drive search limit n g w))
       + match ending_of (drive search limit n g w) with
         | Pending => 0
         | _ => 1
         end)%nat.
Proof.
  revert g w. induction n as [|n IH]; intros g w.
  { cbn. split; [done|lia]. }
  rewrite drive_S. pose proof (next_calls search limit g w) as Hc.
  destruct (next search limit g w) as [[o g'] w'].
  assert (calls w `prefix_of` calls w'
          ∧ (length (calls w') ≤ length (calls w) + 1)%nat) as [Hpre Hlen].
  { destruct Hc as [[-> _]|[-> _]]; cbn [calls].
    - split; [done|lia].
    - split; [by apply prefix_app_r|rewrite length_app; cbn; lia]. }
  destruct o as [id| |x].
  - rewrite resume_Yield. destruct (IH g' w') as [IHpre IHlen].
    rewrite world_of_prepend, ids_of_prepend, ending_of_prepend, length_app.
    split; [by etrans|]. cbn [length]. lia.
  - cbn. split; [done|lia].
  - cbn. split; [done|lia].
Qed.

(** Laziness: a consumer causes at most one call of [engine.search] for
    each identifier it got, and one more only when the generator has
    ended; calls already made stay in the log. *)
Theorem calls_bounded_by_yields {X E : Type} `{!Exceptions X}
  (search : E → params → E * (X + page)) (limit : Z)
  (n : nat) (g : gen) (w : world E) :
  let r := drive search limit n g w in
  calls w `prefix_of` calls (world_of r)
  ∧ (length (calls (world_of r))
     ≤ length (calls w) + length (ids_of r)
       + match ending_of r with Pending => 0 | _ => 1 end)%nat.
Proof. apply drive_calls_bound. Qed.

(** ** A limit that is not positive *)

Lemma suspended_unlimited {X E : Type} `{!Exceptions X}
  (search : E → params → E * (X + page)) (limit : Z) n p i cm s rest
  (w : world E) :
  limit ≤ 0 → 0 ≤ i →
  drive search limit n (Suspended p i cm s rest) w
  = drive search 0 n (Suspended p i cm s rest) w.
Proof.
  intros Hl. revert p i cm s rest w.
  induction n as [|n IH]; intros p i cm s rest w Hi; [done|].
  rewrite !drive_S. destruct rest as [|s' rest].
  - rewrite !next_Suspended_nil, !call_and_enter_spec by lia. cbv zeta.
    destruct (search (engine w) _).2 as [x|[|s0 rest0]];
      [by rewrite !resume_escape|done|].
    rewrite !resume_Yield, IH by lia. done.
  - rewrite !next_Suspended_cons, !resume_Yield, IH by lia. done.
Qed.

(** A negative limit is no limit: line 33 tests [i == limit] after the
    count has been incremented, so a limit below 1 is never met and the
    walk is the walk with the limit 0, call for call. *)
Theorem nonpositive_limit_is_no_limit {X E : Type} `{!Exceptions X}
  (search : E → params → E * (X + page)) (limit : Z)
  (n : nat) (p : params) (w : world E) :
  limit ≤ 0 →
  drive search limit n (Fresh p) w = drive search 0 n (Fresh p) w.
Proof.
  intros Hl. destruct n as [|n]; [done|].
  rewrite !drive_S. cbn [next]. rewrite !call_and_enter_spec. cbv zeta.
  destruct (search (engine w) p).2 as [x|[|s0 rest0]];
    [by rewrite !resume_escape|done|].
  by rewrite !resume_Yield, suspended_unlimited.
Qed.

Lemma nonpositive_limit_is_no_limit_witness :
  -7 ≤ 0
  ∧ drive (replay (of_pages [[6; 5]; [4]; []])) (-7) 5 (Fresh ∅) (World 0%nat [])
    = drive (replay (of_pages [[6; 5]; [4]; []])) 0 5 (Fresh ∅) (World 0%nat []).
Proof.
  split; [lia|].
  apply (nonpositive_limit_is_no_limit (replay (of_pages [[6; 5]; [4]; []]))
           (-7) 5 ∅ (World 0%nat [])). lia.
Defined.

(** ** Where the cursor lands *)

Lemma track_le cm s : track cm s ≤ s.
Proof.
  destruct cm as [m|]; [|cbn; lia]. unfold track, truthy.
  destruct (negb (negb (m =? 0)) || (s <? m)) eqn:Hb; [lia|].
  apply orb_false_iff in Hb as [_ Hlt]. apply Z.ltb_ge in Hlt. lia.
Qed.

Lemma track_keeps_lower m s : s ≤ m → track (Some m) s = s.
Proof.
  intros Hs. unfold track, truthy.
  destruct (negb (negb (m =? 0)) || (s <? m)) eqn:Hb; [done|].
  apply orb_false_iff in Hb as [_ Hlt]. apply Z.ltb_ge in Hlt. lia.
Qed.

Lemma track_elem cm s : track cm s = s ∨ cm = Some (track cm s).
Proof.
  destruct cm as [m|]; [|by left]. unfold track, truthy.
  destruct (negb (negb (m =? 0)) || (s <? m)); [by left|by right].
Qed.

Lemma last_min_elem cm s rest :
  last_min cm s rest ∈ s :: rest ∨ cm = Some (last_min cm s rest).
Proof.
  revert cm s. induction rest as [|s' rest IH]; intros cm s; cbn [last_min].
  - destruct (track_elem cm s) as [->|Heq]; [left; by left|by right].
  - destruct (IH (Some (track cm s)) s') as [Hin|Heq]; [left; by right|].
    injection Heq as Heq. rewrite <- Heq.
    destruct (track_elem cm s) as [->|Heq']; [left; by left|by right].
Qed.

Lemma last_min_le_last cm s rest z :
  last (s :: rest) = Some z → last_min cm s rest ≤ z.
Proof.
  revert cm s. induction rest as [|s' rest IH]; intros cm s Hlast.
  - injection Hlast as <-. apply track_le.
  - cbn [last_min]. by apply IH.
Qed.

Lemma descending_last_min cm s rest :
  match cm with Some m => s ≤ m | None => True end →
  Sorted (λ x y, y ≤ x) (s :: rest) →
  last_min cm s rest = minimum s rest.
Proof.
  revert cm s. induction rest as [|s' rest IH]; intros cm s Hcm Hsorted.
  - cbn [last_min minimum]. destruct cm as [m|]; [|done].
    by apply track_keeps_lower.
  - apply Sorted_inv in Hsorted as [Hsorted Hhd].
    apply HdRel_inv in Hhd. cbn [last_min minimum].
    assert (track cm s = s) as ->
      by (destruct cm as [m|]; [by apply track_keeps_lower|done]).
    rewrite IH by done. pose proof (minimum_le s' rest). lia.
Qed.

(** Whatever the identifiers of a page are, the cursor of the call that
    follows it is one less than an identifier of that page, and lies
    below the last identifier of the page: an engine that takes
    [max_id] as an inclusive upper bound does not return the last status
    of the page again. *)
Theorem cursor_below_last_status {X E : Type} `{!Exceptions X}
  (search : E → params → E * (X + page)) (limit : Z)
  (p : params) (i s : Z) (rest : page) (w : world E) :
  (∀ j, 0 < j ≤ Z.of_nat (length rest) + 1 → i + j ≠ limit) →
  ∃ m,
    calls (world_of (drive search limit (S (length rest))
                       (Suspended p i None s rest) w))
    = calls w ++ [<["max_id" := VInt (m - 1)]> p]
    ∧ m ∈ s :: rest
    ∧ ∀ z, last (s :: rest) = Some z → m - 1 < z.
Proof.
  intros Hlim. exists (last_min None s rest). split; [|split].
  - by apply page_then_call.
  - by destruct (last_min_elem None s rest).
  - intros z Hz. pose proof (last_min_le_last None s rest z Hz). lia.
Qed.

Lemma cursor_below_last_status_witness :
  (∀ j, 0 < j ≤ Z.of_nat (length [0; 9]) + 1 → 0 + j ≠ 0)
  ∧ ∃ m,
      calls (world_of (drive (replay (of_pages [[7; 0; 9]; []])) 0 3
                         (Suspended ∅ 0 None 7 [0; 9]) (World 1%nat [∅])))
      = [∅] ++ [<["max_id" := VInt (m - 1)]> ∅]
      ∧ m ∈ [7; 0; 9]
      ∧ ∀ z, last [7; 0; 9] = Some z → m - 1 < z.
Proof.
  split; [intros j Hj; lia|].
  apply (cursor_below_last_status (replay (of_pages [[7; 0; 9]; []])) 0 ∅ 0 7
           [0; 9] (World 1%nat [∅])).
  intros j Hj. lia.
Defined.

(** On a page without the identifier [0] the cursor of the call that
    follows it is the least identifier of the page minus 1, in whatever
    order the page is: it lies below every identifier of the page, so
    an engine that takes [max_id] as an inclusive upper bound returns
    none of them again. *)
Theorem cursor_below_every_status {X E : Type} `{!Exceptions X}
  (search : E → params → E * (X + page)) (limit : Z)
  (p : params) (i s : Z) (rest : page) (w : world E) :
  Forall (λ z, z ≠ 0) (s :: rest) →
  (∀ j, 0 < j ≤ Z.of_nat (length rest) + 1 → i + j ≠ limit) →
  calls (world_of (drive search limit (S (length rest))
                     (Suspended p i None s rest) w))
  = calls w ++ [<["max_id" := VInt (minimum s rest - 1)]> p]
  ∧ minimum s rest ∈ s :: rest
  ∧ Forall (λ z, minimum s rest - 1 < z) (s :: rest).
Proof.
  intros Hnz Hlim. destruct (minimum_spec s rest) as [Hin Hle].
  split; [|split; [exact Hin|]].
  - rewrite page_then_call by done. by rewrite last_min_page_minimum.
  - eapply Forall_impl; [exact Hle|]. intros z Hz. cbn in Hz. lia.
Qed.

Lemma cursor_below_every_status_witness :
  Forall (λ z, z ≠ 0) [50; 30; 40]
  ∧ (∀ j, 0 < j ≤ Z.of_nat (length [30; 40]) + 1 → 0 + j ≠ 0)
  ∧ calls (world_of (drive (replay (of_pages [[50; 30; 40]; []])) 0 3
                       (Suspended ∅ 0 None 50 [30; 40]) (World 1%nat [∅])))
    = [∅] ++ [<["max_id" := VInt (minimum 50 [30; 40] - 1)]> ∅].
Proof.
  assert (Forall (λ z, z ≠ 0) [50; 30; 40]) as Hnz
    by (repeat constructor; discriminate).
  split; [exact Hnz|]. split; [intros j Hj; lia|].
  apply (cursor_below_every_status (replay (of_pages [[50; 30; 40]; []])) 0 ∅
           0 50 [30; 40] (World 1%nat [∅]) Hnz).
  intros j Hj. lia.
Defined.

(** On a page in descending order, as a search for recent tweets
    returns it, the cursor of the call that follows is the least
    identifier of the page minus 1 even when the page holds the
    identifier [0]: every status replaces the tracked value. *)
Theorem descending_page_cursor {X E : Type} `{!Exceptions X}
  (search : E → params → E * (X + page)) (limit : Z)
  (p : params) (i s : Z) (rest : page) (w : world E) :
  Sorted (λ x y, y ≤ x) (s :: rest) →
  (∀ j, 0 < j ≤ Z.of_nat (length rest) + 1 → i + j ≠ limit) →
  calls (world_of (drive search limit (S (length rest))
                     (Suspended p i None s rest) w))
  = calls w ++ [<["max_id" := VInt (minimum s rest - 1)]> p]
  ∧ last (s :: rest) = Some (minimum s rest).
Proof.
  intros Hsorted Hlim. split.
  - rewrite page_then_call by done. by rewrite descending_last_min.
  - clear Hlim. revert s Hsorted.
    induction rest as [|s' rest IH]; intros s Hsorted; [done|].
    apply Sorted_inv in Hsorted as [Hsorted Hhd]. apply HdRel_inv in Hhd.
    cbn [minimum]. pose proof (minimum_le s' rest).
    replace (Z.min s (minimum s' rest)) with (minimum s' rest) by lia.
    rewrite <- (IH s' Hsorted). done.
Qed.

Lemma descending_page_cursor_witness :
  Sorted (λ x y, y ≤ x) [5; 0; -2]
  ∧ (∀ j, 0 < j ≤ Z.of_nat (length [0; -2]) + 1 → 0 + j ≠ 0)
  ∧ calls (world_of (drive (replay (of_pages [[5; 0; -2]; []])) 0 3
                       (Suspended ∅ 0 None 5 [0; -2]) (World 1%nat [∅])))
    = [∅] ++ [<["max_id" := VInt (minimum 5 [0; -2] - 1)]> ∅].
Proof.
  assert (Sorted (λ x y, y ≤ x) [5; 0; -2]) as Hs
    by (repeat constructor; lia).
  split; [exact Hs|]. split; [intros j Hj; lia|].
  apply (descending_page_cursor (replay (of_pages [[5; 0; -2]; []])) 0 ∅
           0 5 [0; -2] (World 1%nat [∅]) Hs).
  intros j Hj. lia.
Defined.

(** ** The arguments of the calls *)

Lemma suspended_calls {X E : Type} `{!Exceptions X}
  (search : E → params → E * (X + page)) (limit : Z)
  n p i cm s rest (w : world E) (ys : list Z) :
  s ∈ ys → (∀ m, cm = Some m → m ∈ ys) →
  ∃ cs,
    calls (world_of (drive search limit n (Suspended p i cm s rest) w))
    = calls w ++ cs
    ∧ Forall (λ c : params,
        ∃ m, c !! "max_id" = Some (VInt (m - 1))
             ∧ m ∈ ys ++ ids_of (drive search limit n
                                   (Suspended p i cm s rest) w)) cs.
Proof.
  revert p i cm s rest w ys.
  induction n as [|n IH]; intros p i cm s rest w ys Hs Hcm.
  { exists []. split; [by rewrite app_nil_r|constructor]. }
  assert (track cm s ∈ ys) as Htrack.
  { destruct (track_elem cm s) as [->|Heq]; [done|by apply Hcm]. }
  rewrite drive_S. destruct (Z.eq_dec (i + 1) limit) as [Heq|Hne].
  { rewrite next_Suspended_limit by done. exists [].
    split; [by rewrite app_nil_r|constructor]. }
  destruct rest as [|s' rest].
  - rewrite next_Suspended_nil, call_and_enter_spec by done. cbv zeta.
    set (p' := <["max_id" := VInt (track cm s - 1)]> p).
    assert (∀ l, ∃ m, p' !! "max_id" = Some (VInt (m - 1)) ∧ m ∈ ys ++ l)
      as Hp'.
    { intros l. exists (track cm s). split; [apply lookup_insert_eq|].
      apply elem_of_app. by left. }
    destruct (search (engine w) p').2 as [x|[|s0 rest0]].
    + rewrite resume_escape. exists [p']. split; [done|].
      by apply Forall_singleton.
    + exists [p']. split; [done|]. by apply Forall_singleton.
    + rewrite resume_Yield, world_of_prepend, ids_of_prepend.
      destruct (IH p' (i + 1) None s0 rest0
                  (World (search (engine w) p').1 (calls w ++ [p']))
                  (ys ++ [s0])) as (cs & Hcalls & Hcs).
      { apply elem_of_app. right. by left. }
      { done. }
      exists (p' :: cs). split.
      * rewrite Hcalls. cbn [calls]. by rewrite <- app_assoc.
      * apply Forall_cons. split; [done|].
        eapply Forall_impl; [exact Hcs|]. intros c (m & Hm & Hin).
        exists m. split; [done|]. by rewrite <- app_assoc in Hin.
  - rewrite next_Suspended_cons, resume_Yield by done.
    rewrite world_of_prepend, ids_of_prepend.
    destruct (IH p (i + 1) (Some (track cm s)) s' rest w (ys ++ [s']))
      as (cs & Hcalls & Hcs).
    { apply elem_of_app. right. by left. }
    { intros m [= <-]. apply elem_of_app. by left. }
    exists cs. split; [done|].
    eapply Forall_impl; [exact Hcs|]. intros c (m & Hm & Hin).
    exists m. split; [done|]. by rewrite <- app_assoc in Hin.
Qed.

(** The first call of a walk passes the caller's mapping as it is, with
    the caller's [max_id] if there is one; every later call passes a
    [max_id] that is one less than an identifier the consumer has
    already got. *)
Theorem later_calls_carry_a_yielded_cursor {X E : Type} `{!Exceptions X}
  (search : E → params → E * (X + page)) (limit : Z)
  (n : nat) (p : params) (w : world E) :
  let r := drive search limit (S n) (Fresh p) w in
  ∃ cs,
    calls (world_of r) = calls w ++ p :: cs
    ∧ Forall (λ c : params,
        ∃ m, c !! "max_id" = Some (VInt (m - 1)) ∧ m ∈ ids_of r) cs.
Proof.
  cbv zeta. rewrite drive_S. cbn [next].
  rewrite call_and_enter_spec. cbv zeta.
  destruct (search (engine w) p).2 as [x|[|s0 rest0]].
  - rewrite resume_escape. exists []. split; [done|constructor].
  - exists []. split; [done|constructor].
  - rewrite resume_Yield, world_of_prepend, ids_of_prepend.
    destruct (suspended_calls search limit n p 0 None s0 rest0
                (World (search (engine w) p).1 (calls w ++ [p])) [s0])
      as (cs & Hcalls & Hcs); [by left|done|].
    exists cs. split; [|done].
    rewrite Hcalls. cbn [calls]. by rewrite <- app_assoc.
Qed.

(** * Properties of [main] *)

(** ** The table *)

Lemma flip_le_total : Total (flip Z.le).
Proof. intros x y. unfold flip. lia. Qed.

Lemma elem_of_sorted_union a b c twid :
  twid ∈ sorted_union a b c ↔ twid ∈ a ∨ twid ∈ b ∨ twid ∈ c.
Proof.
  unfold sorted_union. rewrite merge_sort_Permutation, elem_of_elements.
  rewrite !elem_of_union, !elem_of_list_to_set. tauto.
Qed.

Lemma NoDup_sorted_union a b c : NoDup (sorted_union a b c).
Proof.
  unfold sorted_union. rewrite merge_sort_Permutation. apply NoDup_elements.
Qed.

(** The identifiers the table lists are exactly those that at least
    one of the three searches returned, each once, in strictly
    descending order. *)
Theorem table_lists_each_id_once (a b c : list Z) :
  StronglySorted (λ x y, y < x) (sorted_union a b c)
  ∧ ∀ twid, twid ∈ sorted_union a b c ↔ twid ∈ a ∨ twid ∈ b ∨ twid ∈ c.
Proof.
  split; [|intros twid; apply elem_of_sorted_union].
  pose proof (NoDup_sorted_union a b c) as Hnd.
  assert (StronglySorted (flip Z.le) (sorted_union a b c)) as Hs.
  { pose proof flip_le_total. unfold sorted_union.
    apply StronglySorted_merge_sort; apply _. }
  induction Hs as [|x l Hs IH Hall]; [constructor|].
  apply NoDup_cons in Hnd as [Hx Hnd]. constructor; [by apply IH|].
  apply Forall_forall. intros y Hy.
  rewrite Forall_forall in Hall. specialize (Hall y Hy). unfold flip in Hall.
  assert (y ≠ x) by (intros ->; done). lia.
Qed.

Section MainFacts.

Context {X E : Type} `{!Exceptions X}.
Variable twython : auth → E.
Variable search : E → params → E * (X + page).
Variable pformat : params → string.
Variable render : list (list string) → string.

(** The table has the headings and one row for each identifier found;
    the rows begin with different cells, and every row has an [x] in at
    least one of the three columns of the searches. *)
Theorem table_rows_are_marked (p1 p2 p3 : params) (a b c : list Z) :
  length (table_data pformat p1 p2 p3 a b c)
  = S (length (sorted_union a b c))
  ∧ NoDup (take 1 <$> drop 1 (table_data pformat p1 p2 p3 a b c))
  ∧ Forall (λ row, "x" ∈ drop 1 row)
      (drop 1 (table_data pformat p1 p2 p3 a b c)).
Proof.
  unfold table_data. cbn [length drop]. rewrite length_fmap, !drop_0.
  split; [done|]. split.
  - rewrite <- list_fmap_compose.
    assert (Inj (=) (=) (take 1 ∘ table_row a b c)) as Hinj.
    { intros x y [= Hxy]. by apply (inj pretty). }
    apply (NoDup_fmap_2 _), NoDup_sorted_union.
  - apply Forall_fmap, Forall_forall. intros twid Htwid.
    apply elem_of_sorted_union in Htwid.
    unfold compose, table_row, mark. cbn [drop].
    destruct Htwid as [H|[H|H]]; rewrite (bool_decide_eq_true_2 _ H);
      set_solver.
Qed.

End MainFacts.

(** ** The three searches *)

Lemma maximum_spec x l :
  maximum x l ∈ x :: l ∧ Forall (λ y, y ≤ maximum x l) (x :: l).
Proof.
  revert x. induction l as [|y l IH]; intros x; cbn [maximum].
  - split; [by left|by apply Forall_singleton].
  - destruct (IH y) as [Hin Hle]. split.
    + destruct (Z.max_spec x (maximum y l)) as [[_ ->]|[_ ->]];
        [by right|by left].
    + apply Forall_cons. split; [lia|].
      eapply Forall_impl; [exact Hle|]. intros z Hz. cbn in Hz. lia.
Qed.

Section Searches.

Context {X E : Type} `{!Exceptions X}.
Variable twython : auth → E.
Variable search : E → params → E * (X + page).
Variable pformat : params → string.
Variable render : list (list string) → string.

Lemma fresh_under_limit limit fuel p (w : world E) :
  0 < limit → (Z.to_nat limit < fuel)%nat →
  ending_of (drive search limit fuel (Fresh p) w) ≠ Pending
  ∧ (length (calls (world_of (drive search limit fuel (Fresh p) w)))
     ≤ length (calls w) + Z.to_nat limit + 1)%nat.
Proof.
  intros Hl Hfuel.
  assert (ending_of (drive search limit fuel (Fresh p) w) ≠ Pending
          ∧ (length (ids_of (drive search limit fuel (Fresh p) w))
             ≤ Z.to_nat limit)%nat) as [Hend Hids].
  { destruct fuel as [|n]; [lia|].
    rewrite drive_S. cbn [next]. rewrite call_and_enter_spec. cbv zeta.
    destruct (search (engine w) p).2 as [x|[|s rest]];
      [rewrite resume_escape; split;
         [apply escaped_not_Pending|cbn; lia]
      |split; [done|cbn; lia]|].
    rewrite resume_Yield, ending_of_prepend, ids_of_prepend, length_app.
    split; [apply ends_by_limit; lia|].
    match goal with
    | |- context [drive search limit n ?g ?w0] =>
        pose proof (yield_bound search limit n p 0 None s rest w0 ltac:(lia))
    end.
    cbn [length]. lia. }
  split; [exact Hend|].
  destruct (drive_calls_bound search limit fuel (Fresh p) w) as [_ Hlen].
  destruct (ending_of (drive search limit fuel (Fresh p) w)); lia.
Qed.

Lemma fresh_first_call limit fuel p (w : world E) :
  ending_of (drive search limit fuel (Fresh p) w) ≠ Pending →
  ∃ cs, calls (world_of (drive search limit fuel (Fresh p) w))
        = calls w ++ p :: cs.
Proof.
  destruct fuel as [|n]; [done|]. intros _.
  rewrite drive_S. cbn [next]. rewrite call_and_enter_spec. cbv zeta.
  destruct (search (engine w) p).2 as [x|[|s rest]];
    [rewrite resume_escape; by exists []|by exists []|].
  rewrite resume_Yield, world_of_prepend.
  match goal with
  | |- context [drive search limit n ?g ?w0] =>
      destruct (drive_calls_bound search limit n g w0) as [[cs Hcs] _]
  end.
  exists cs. rewrite Hcs. cbn [calls]. by rewrite <- app_assoc.
Qed.

(** When the three searches were made: the second started from the
    first mapping with [max_id] set to the greatest identifier the
    first search yielded, the third from the second mapping with
    [since_id] set to the least identifier of the first search minus 1;
    the cursors the walks wrote in between are not in them.  Each
    search began with a call with its own mapping. *)
Theorem searches_start_from_found_bounds (fuel : nat) (limit : Z)
  (p : params) (w w' : world E) (mo ms : params) (a b c : list Z) :
  searches search fuel limit p w = (Searched mo ms a b c, w') →
  ∃ hi lo cs1 cs2 cs3,
    hi ∈ a ∧ Forall (λ z, z ≤ hi) a
    ∧ lo ∈ a ∧ Forall (λ z, lo ≤ z) a
    ∧ mo = <["max_id" := VInt hi]> p
    ∧ ms = <["since_id" := VInt (lo - 1)]> (<["max_id" := VInt hi]> p)
    ∧ calls w' = calls w ++ p :: cs1 ++ mo :: cs2 ++ ms :: cs3.
Proof.
  unfold searches. intros Hs.
  pose proof (fresh_first_call limit fuel p w) as H1.
  destruct (drive search limit fuel (Fresh p) w)
    as [[[ids1 e1] g1] w1]; cbn in H1.
  destruct ids1 as [|id ids], e1 as [| |x1]; try done.
  pose proof (fresh_first_call limit fuel
                (<["max_id" := VInt (maximum id ids)]> p) w1) as H2.
  destruct (drive search limit fuel (Fresh _) w1)
    as [[[ids2 e2] g2] w2]; cbn in H2.
  destruct e2 as [| |x2]; [done| |done].
  pose proof (fresh_first_call limit fuel
                (<["since_id" := VInt (minimum id ids - 1)]>
                   (<["max_id" := VInt (maximum id ids)]> p)) w2) as H3.
  destruct (drive search limit fuel (Fresh _) w2)
    as [[[ids3 e3] g3] w3]; cbn in H3.
  destruct e3 as [| |x3]; [done| |done].
  injection Hs as <- <- <- <- <- <-.
  destruct H1 as [cs1 H1]; [done|]. destruct H2 as [cs2 H2]; [done|].
  destruct H3 as [cs3 H3]; [done|].
  destruct (maximum_spec id ids) as [Hhi Hhi'].
  destruct (minimum_spec id ids) as [Hlo Hlo'].
  exists (maximum id ids), (minimum id ids), cs1, cs2, cs3.
  repeat (split; [done|]).
  rewrite H3, H2, H1. by rewrite <- !app_assoc.
Qed.

End Searches.

Lemma searches_start_from_found_bounds_witness :
  searches (replay (of_pages [[9; 4; 6]; []; [9; 8]; []; [5]; []])) 10 0
    (initial_params "rocq" 0) (World 0%nat [])
  = (Searched (<["max_id" := VInt 9]> (initial_params "rocq" 0))
       (<["since_id" := VInt 3]>
          (<["max_id" := VInt 9]> (initial_params "rocq" 0)))
       [9; 4; 6] [9; 8] [5],
     World 6%nat
       [initial_params "rocq" 0;
        <["max_id" := VInt 3]> (initial_params "rocq" 0);
        <["max_id" := VInt 9]> (initial_params "rocq" 0);
        <["max_id" := VInt 7]> (initial_params "rocq" 0);
        <["since_id" := VInt 3]>
          (<["max_id" := VInt 9]> (initial_params "rocq" 0));
        <["max_id" := VInt 4]>
          (<["since_id" := VInt 3]>
             (<["max_id" := VInt 9]> (initial_params "rocq" 0)))])
  ∧ ∃ hi lo, hi ∈ [9; 4; 6] ∧ lo ∈ [9; 4; 6]
      ∧ <["max_id" := VInt 9]> (initial_params "rocq" 0)
        = <["max_id" := VInt hi]> (initial_params "rocq" 0)
      ∧ <["since_id" := VInt 3]>
          (<["max_id" := VInt 9]> (initial_params "rocq" 0))
        = <["since_id" := VInt (lo - 1)]>
            (<["max_id" := VInt hi]> (initial_params "rocq" 0)).
Proof.
  assert (searches (replay (of_pages [[9; 4; 6]; []; [9; 8]; []; [5]; []]))
            10 0 (initial_params "rocq" 0) (World 0%nat [])
          = (Searched (<["max_id" := VInt 9]> (initial_params "rocq" 0))
               (<["since_id" := VInt 3]>
                  (<["max_id" := VInt 9]> (initial_params "rocq" 0)))
               [9; 4; 6] [9; 8] [5],
             World 6%nat
               [initial_params "rocq" 0;
                <["max_id" := VInt 3]> (initial_params "rocq" 0);
                <["max_id" := VInt 9]> (initial_params "rocq" 0);
                <["max_id" := VInt 7]> (initial_params "rocq" 0);
                <["since_id" := VInt 3]>
                  (<["max_id" := VInt 9]> (initial_params "rocq" 0));
                <["max_id" := VInt 4]>
                  (<["since_id" := VInt 3]>
                     (<["max_id" := VInt 9]> (initial_params "rocq" 0)))]))
    as Hrun by reflexivity.
  split; [exact Hrun|].
  destruct (searches_start_from_found_bounds _ _ _ _ _ _ _ _ _ _ _ Hrun)
    as (hi & lo & _ & _ & _ & Hhi & _ & Hlo & _ & Hmo & Hms & _).
  exists hi, lo. by repeat split.
Defined.


(** ** Runs of [main] *)

Section MainRuns.

Context {X E : Type} `{!Exceptions X}.
Variable twython : auth → E.
Variable search : E → params → E * (X + page).
Variable pformat : params → string.
Variable render : list (list string) → string.

(** Every call a walk makes passes, at a key other than [max_id], what
    the mapping the walk began with has there. *)
Lemma fresh_calls_frame limit fuel (p q : params) k (w : world E) :
  k ≠ "max_id" → p !! k = q !! k →
  Forall (λ c : params, c !! k = q !! k) (calls w) →
  Forall (λ c : params, c !! k = q !! k)
    (calls (world_of (drive search limit fuel (Fresh p) w))).
Proof.
  intros Hk Hp Hw.
  pose proof (drive_calls_frame search limit fuel (Fresh p) w k Hk) as H.
  cbn [params_of] in H. rewrite Hp in H. by apply H.
Qed.

Lemma searches_calls_frame limit fuel (p : params) k (w : world E) :
  k ≠ "max_id" → k ≠ "since_id" →
  Forall (λ c : params, c !! k = p !! k) (calls w) →
  Forall (λ c : params, c !! k = p !! k)
    (calls (searches search fuel limit p w).2).
Proof.
  intros Hk Hk' Hw. unfold searches.
  pose proof (fresh_calls_frame limit fuel p p k w Hk eq_refl Hw) as H1.
  destruct (drive search limit fuel (Fresh p) w)
    as [[[ids1 e1] g1] w1]; cbn in H1.
  destruct ids1 as [|id ids], e1 as [| |x1]; try done.
  pose proof (fresh_calls_frame limit fuel
                (<["max_id" := VInt (maximum id ids)]> p) p k w1 Hk
                (lookup_insert_ne _ _ _ _ (not_eq_sym Hk)) H1) as H2.
  destruct (drive search limit fuel (Fresh _) w1)
    as [[[ids2 e2] g2] w2]; cbn in H2.
  destruct e2 as [| |x2]; try done.
  assert ((<["since_id" := VInt (minimum id ids - 1)]>
             (<["max_id" := VInt (maximum id ids)]> p)) !! k = p !! k) as Hms.
  { by rewrite !lookup_insert_ne. }
  pose proof (fresh_calls_frame limit fuel _ p k w2 Hk Hms H2) as H3.
  destruct (drive search limit fuel (Fresh _) w2)
    as [[[ids3 e3] g3] w3]; cbn in H3.
  by destruct e3 as [| |x3].
Qed.

(** Every call of [engine.search] a run of [main] makes carries the
    query of the command line, the result type [recent], and as [count]
    100 when the limit is 0 and else the lesser of the limit and 100;
    no key but [max_id] and [since_id] differs from the first mapping. *)
Theorem main_calls_keep_the_query (fuel : nat) (query : string)
  (c : credentials) (limit : Z) :
  Forall (λ call : params,
      call !! "q" = Some (VStr query)
      ∧ call !! "result_type" = Some (VStr "recent")
      ∧ call !! "count"
        = Some (VInt (if limit =? 0 then 100 else Z.min limit 100))
      ∧ ∀ k, k ≠ "max_id" → k ≠ "since_id" →
             call !! k = initial_params query limit !! k)
    (main twython search pformat render fuel query c limit).2.
Proof.
  assert (∀ k, k ≠ "max_id" → k ≠ "since_id" →
            Forall (λ call : params, call !! k = initial_params query limit !! k)
              (main twython search pformat render fuel query c limit).2)
    as Hframe.
  { intros k Hk Hk'. unfold main. destruct (choose_auth c) as [a|]; [|done].
    cbv zeta.
    pose proof (searches_calls_frame limit fuel (initial_params query limit) k
                  (World (twython a) []) Hk Hk' (Forall_nil_2 _)) as H.
    by destruct (searches search fuel limit _ _) as [[mo ms ia ib ic| |x|] w]. }
  apply Forall_forall. intros call Hcall.
  assert (∀ k, k ≠ "max_id" → k ≠ "since_id" →
            call !! k = initial_params query limit !! k) as Hk.
  { intros k Hk Hk'. specialize (Hframe k Hk Hk').
    rewrite Forall_forall in Hframe. by apply Hframe. }
  split; [by rewrite Hk|]. split; [by rewrite Hk|]. split; [by rewrite Hk|].
  exact Hk.
Qed.

(** With a positive limit and more than [limit] resumptions for each
    [list(...)], a run of [main] ends, whatever the engine answers, and
    it has made at most [3 * (limit + 1)] calls of [engine.search]. *)
Theorem main_ends_under_a_limit (fuel : nat) (query : string)
  (c : credentials) (limit : Z) :
  0 < limit → (Z.to_nat limit < fuel)%nat →
  (main twython search pformat render fuel query c limit).1 ≠ Unfinished
  ∧ (length (main twython search pformat render fuel query c limit).2
     ≤ 3 * (Z.to_nat limit + 1))%nat.
Proof.
  intros Hl Hfuel. unfold main. destruct (choose_auth c) as [a|];
    [|split; [done|cbn; lia]].
  cbv zeta. unfold searches.
  pose proof (fresh_under_limit search limit fuel (initial_params query limit)
                (World (twython a) []) Hl Hfuel) as [H1 H1'].
  destruct (drive search limit fuel (Fresh _) (World (twython a) []))
    as [[[ids1 e1] g1] w1]; cbn in H1, H1'.
  destruct ids1 as [|id ids], e1 as [| |x1]; try done;
    try (split; [done|cbn; lia]).
  pose proof (fresh_under_limit search limit fuel
                (<["max_id" := VInt (maximum id ids)]>
                   (initial_params query limit)) w1 Hl Hfuel) as [H2 H2'].
  destruct (drive search limit fuel (Fresh _) w1)
    as [[[ids2 e2] g2] w2]; cbn in H2, H2'.
  destruct e2 as [| |x2]; try done; try (split; [done|cbn; lia]).
  pose proof (fresh_under_limit search limit fuel
                (<["since_id" := VInt (minimum id ids - 1)]>
                   (<["max_id" := VInt (maximum id ids)]>
                      (initial_params query limit))) w2 Hl Hfuel) as [H3 H3'].
  destruct (drive search limit fuel (Fresh _) w2)
    as [[[ids3 e3] g3] w3]; cbn in H3, H3'.
  destruct e3 as [| |x3]; try done; split; try done; cbn; lia.
Qed.

(** Without a bearer token, and with one of the four OAuth 1
    credentials missing or empty, [main] prints its message about the
    credentials and searches nothing. *)
Theorem main_without_credentials (fuel : nat) (query : string)
  (c : credentials) (limit : Z) :
  given (bearer_token c) = None →
  given (consumer_key c) = None ∨ given (consumer_secret c) = None
  ∨ given (access_token c) = None ∨ given (access_token_secret c) = None →
  main twython search pformat render fuel query c limit
  = (Echoed no_engine_message, []).
Proof.
  intros Hb Hmissing. unfold main, choose_auth. rewrite Hb.
  destruct (given (consumer_key c)), (given (consumer_secret c)),
    (given (access_token c)), (given (access_token_secret c));
    try reflexivity.
  by destruct Hmissing as [?|[?|[?|?]]].
Qed.

(** When the first search returns no statuses, [main] prints that there
    are no results after that one call: the two other searches are not
    made. *)
Theorem main_without_results (fuel : nat) (query : string)
  (c : credentials) (limit : Z) (a : auth) (e' : E) :
  choose_auth c = Some a →
  search (twython a) (initial_params query limit) = (e', inr []) →
  main twython search pformat render (S fuel) query c limit
  = (Echoed no_results_message, [initial_params query limit]).
Proof.
  intros Ha Hs. unfold main. rewrite Ha. cbv zeta. unfold searches.
  rewrite drive_S. cbn [next]. rewrite call_and_enter_spec. cbn [engine].
  by rewrite Hs.
Qed.

End MainRuns.

Lemma main_ends_under_a_limit_witness :
  0 < 2 ∧ (Z.to_nat 2 < 3)%nat
  ∧ (main (λ _, 0%nat) (replay (of_pages [[8; 7]; [8; 7]; [8; 7]]))
       (λ _, "") (λ _, "") 3 "rocq"
       (Credentials (Some "token") None None None None) 2).1 ≠ Unfinished
  ∧ (length (main (λ _, 0%nat) (replay (of_pages [[8; 7]; [8; 7]; [8; 7]]%Z))
               (λ _, "") (λ _, "") 3 "rocq"
               (Credentials (Some "token") None None None None) 2%Z).2
     ≤ 3 * (Z.to_nat 2 + 1))%nat.
Proof.
  split; [lia|]. split; [cbn; lia|].
  apply (main_ends_under_a_limit (λ _, 0%nat)
           (replay (of_pages [[8; 7]; [8; 7]; [8; 7]])) (λ _, "") (λ _, "")
           3 "rocq" (Credentials (Some "token") None None None None) 2);
    [lia|cbn; lia].
Defined.

Lemma main_without_credentials_witness :
  given (bearer_token (Credentials (Some "") (Some "k") (Some "s") None
                         (Some "ts"))) = None
  ∧ given (access_token (Credentials (Some "") (Some "k") (Some "s") None
                           (Some "ts"))) = None
  ∧ main (λ _, 0%nat) (replay (of_pages [[8; 7]])) (λ _, "") (λ _, "") 5
      "rocq" (Credentials (Some "") (Some "k") (Some "s") None (Some "ts")) 0
    = (Echoed no_engine_message, []).
Proof.
  split; [reflexivity|]. split; [reflexivity|].
  apply (main_without_credentials (λ _, 0%nat) (replay (of_pages [[8; 7]]))
           (λ _, "") (λ _, "") 5 "rocq"
           (Credentials (Some "") (Some "k") (Some "s") None (Some "ts")) 0);
    [reflexivity|]. right. right. left. reflexivity.
Defined.

Lemma main_without_results_witness :
  choose_auth (Credentials None (Some "k") (Some "s") (Some "t") (Some "ts"))
  = Some (OAuth1 "k" "s" "t" "ts")
  ∧ replay (of_pages [[]; [3]]) 0%nat (initial_params "rocq" 50)
    = (1%nat, inr [])
  ∧ main (λ _, 0%nat) (replay (of_pages [[]; [3]])) (λ _, "") (λ _, "") (S 4)
      "rocq" (Credentials None (Some "k") (Some "s") (Some "t") (Some "ts")) 50
    = (Echoed no_results_message, [initial_params "rocq" 50]).
Proof.
  split; [reflexivity|]. split; [reflexivity|].
  apply (main_without_results (λ _, 0%nat) (replay (of_pages [[]; [3]]))
           (λ _, "") (λ _, "") 4 "rocq"
           (Credentials None (Some "k") (Some "s") (Some "t") (Some "ts")) 50
           (OAuth1 "k" "s" "t" "ts") 1%nat); reflexivity.
Defined.
